(** * go2ts: the recursive type mapper of [internal/parser] and [Convert]

    A shallow embedding of [internal/parser/parser.go] (the generic splitter
    and the recursive Go-type to TypeScript-type mapper) and of
    [pkg/go2ts.Convert], with the properties the specification states about
    them.

    Modelling conventions.
    - A Go [string] holding valid UTF-8 is modelled as the sequence of its
      code points ([gostring := list rune], [rune := N]).  Every index the
      source computes comes from a search for an ASCII byte, so slicing at
      byte offsets and slicing at code-point offsets agree on such strings;
      [for _, r := range s] visits exactly the code points, [WriteRune]
      writes them back unchanged.
    - A Go [map[K]V] is a [gmap]; [visited map[string]bool] keeps its boolean
      values, and [visited[k]] reads [false] for an absent key.
    - [visited] is the only object the mapper mutates; it is threaded through
      every call (state passing).  Recursion and the unbounded [for] loop
      consume fuel; [None] means the fuel ran out, never an error of the
      program. *)

From Stdlib Require Import String Ascii ZArith NArith Lia.
From stdpp Require Import base option list list_numbers relations gmap fin_maps
  fin_sets.

Local Open Scope N_scope.
Local Open Scope nat_scope.
Local Open Scope list_scope.

(** ** Strings *)

Module GoStr.

Abbreviation rune := N.
Abbreviation gostring := (list N).

(** An ASCII literal of the source. *)
Definition go (s : string) : gostring :=
  (fun a => N_of_ascii a) <$> list_ascii_of_string s.

Definition ch (a : ascii) : rune := N_of_ascii a.

Arguments go s%_string.
Arguments ch a%_char.

Definition eqs (a b : gostring) : bool := bool_decide (a = b).

(** [unicode.IsSpace]: the Latin-1 switch, then the [White_Space] table. *)
Definition IsSpace (r : rune) : bool :=
  if (r <=? 255)%N then
    bool_decide (r ∈ [9; 10; 11; 12; 13; 32; 133; 160]%N)
  else
    (r =? 5760)%N
    || ((8192 <=? r) && (r <=? 8202))%N
    || ((8232 <=? r) && (r <=? 8233))%N
    || (r =? 8239)%N || (r =? 8287)%N || (r =? 12288)%N.

Fixpoint drop_while {A} (p : A -> bool) (l : list A) : list A :=
  match l with
  | [] => []
  | x :: l' => if p x then drop_while p l' else l
  end.

Definition TrimLeft (s : gostring) : gostring := drop_while IsSpace s.
Definition TrimRight (s : gostring) : gostring :=
  reverse (drop_while IsSpace (reverse s)).

(** [strings.TrimSpace] *)
Definition TrimSpace (s : gostring) : gostring := TrimRight (TrimLeft s).

(** [strings.HasPrefix] *)
Fixpoint HasPrefix (s p : gostring) {struct p} : bool :=
  match p, s with
  | [], _ => true
  | _ :: _, [] => false
  | a :: p', b :: s' => bool_decide (a = b) && HasPrefix s' p'
  end.

(** [strings.HasSuffix] *)
Definition HasSuffix (s p : gostring) : bool :=
  HasPrefix (reverse s) (reverse p).

(** [strings.TrimPrefix] and [strings.TrimSuffix] *)
Definition TrimPrefix (s p : gostring) : gostring :=
  if HasPrefix s p then drop (length p) s else s.
Definition TrimSuffix (s p : gostring) : gostring :=
  if HasSuffix s p then take (length s - length p) s else s.

(** [strings.Index]: offset of the first occurrence, [-1] when there is none. *)
Fixpoint Index (s sub : gostring) : Z :=
  if HasPrefix s sub then 0%Z
  else match s with
       | [] => (-1)%Z
       | _ :: s' => let i := Index s' sub in
                    if (i <? 0)%Z then (-1)%Z else (i + 1)%Z
       end.

(** [strings.LastIndex]: offset of the last occurrence, [-1] when there is none. *)
Fixpoint LastIndex (s sub : gostring) : Z :=
  match s with
  | [] => if HasPrefix s sub then 0%Z else (-1)%Z
  | _ :: s' => let i := LastIndex s' sub in
               if (0 <=? i)%Z then (i + 1)%Z
               else if HasPrefix s sub then 0%Z else (-1)%Z
  end.

(** [strings.Contains] and [strings.ContainsAny] *)
Definition Contains (s sub : gostring) : bool := (0 <=? Index s sub)%Z.
Definition ContainsAny (s chars : gostring) : bool :=
  existsb (fun r => bool_decide (r ∈ chars)) s.

(** [s[i:j]] for offsets that are in range. *)
Definition slice (s : gostring) (i j : Z) : gostring :=
  take (Z.to_nat j - Z.to_nat i) (drop (Z.to_nat i) s).

(** [strings.SplitN(s, sep, 2)]: [None] stands for the one-element result
    returned when [sep] does not occur. *)
Definition SplitN2 (s sep : gostring) : option (gostring * gostring) :=
  let i := Index s sep in
  if (i <? 0)%Z then None
  else Some (take (Z.to_nat i) s, drop (Z.to_nat i + length sep) s).

(** [strings.Split(s, sep)] for a one-character separator. *)
Fixpoint Split1 (s : gostring) (sep : rune) : list gostring :=
  match s with
  | [] => [[]]
  | c :: s' =>
      if bool_decide (c = sep) then [] :: Split1 s' sep
      else match Split1 s' sep with
           | [] => [[c]]
           | w :: ws => (c :: w) :: ws
           end
  end.

(** [strings.Join] *)
Fixpoint Join (parts : list gostring) (sep : gostring) : gostring :=
  match parts with
  | [] => []
  | [p] => p
  | p :: ps => p ++ sep ++ Join ps sep
  end.

(** [strings.Fields]: the maximal runs of non-space characters. *)
Fixpoint fields_aux (s : gostring) (cur : gostring) : list gostring :=
  match s with
  | [] => match cur with [] => [] | _ => [reverse cur] end
  | c :: s' =>
      if IsSpace c then
        match cur with
        | [] => fields_aux s' []
        | _ => reverse cur :: fields_aux s' []
        end
      else fields_aux s' (c :: cur)
  end.
Definition Fields (s : gostring) : list gostring := fields_aux s [].

(** The fields of a text, each counted with one separator. *)
Definition weight (l : list gostring) : nat :=
  foldr (fun x acc => length x + 1 + acc) 0 l.

End GoStr.
Export GoStr.

(** ** The parser package: tables and the generic splitter *)

Module Parser.

(** [FieldInfo] and [StructInfo] of the source. *)
Record FieldInfo := { FName : gostring; FType : gostring; FTags : gostring }.
Record StructInfo :=
  { SName : gostring; STypeParams : list gostring; SFields : list FieldInfo }.

(** The cycle guard: Go's [map[string]bool]. *)
Abbreviation visited_map := (gmap gostring bool).

(** [visited[k]], which is [false] for an absent key. *)
Definition vget (visited : visited_map) (k : gostring) : bool :=
  default false (visited !! k).

Definition is_ident_char (r : rune) : bool :=
  ((97 <=? r) && (r <=? 122))%N || ((65 <=? r) && (r <=? 90))%N
  || ((48 <=? r) && (r <=? 57))%N || (r =? 95)%N.

(** [\[.*\]] at the head of [s], the opening bracket already consumed: a
    closing bracket before any line feed ([.] does not match a line feed). *)
Fixpoint closes_on_line (s : gostring) : bool :=
  match s with
  | [] => false
  | c :: s' =>
      if (c =? 93)%N then true
      else if (c =? 10)%N then false
      else closes_on_line s'
  end.

(** [genericTypePattern.MatchString]: the unanchored pattern
    [[a-zA-Z0-9_]+\[.*\]]. *)
Fixpoint genericTypePattern (s : gostring) : bool :=
  match s with
  | [] => false
  | c :: s' =>
      match s' with
      | d :: s'' =>
          (is_ident_char c && (d =? 91)%N && closes_on_line s'')
          || genericTypePattern s'
      | [] => false
      end
  end.

Definition checkSpecialCases (goType : gostring) : gostring :=
  if eqs goType (go "[]byte") then go "Uint8Array"
  else if eqs goType (go "struct{}") then go "any"
  else if eqs goType (go "func") then go "(...args: any[]) => any"
  else if bool_decide (goType ∈ [go "*time.Time"; go "*url.URL"]) then go "string"
  else [].

(** [IsUserDefinedStruct] *)
Definition IsUserDefinedStruct (name : gostring)
    (structMap : gmap gostring StructInfo) : bool :=
  bool_decide (is_Some (structMap !! name)).

(** [IsAliasName] *)
Definition IsAliasName (typeName : gostring) : bool :=
  match typeName with
  | [] => false
  | r :: _ => ((65 <=? r) && (r <=? 90))%N
  end.

(** The closure [flush] of [SplitGenericType], on the pair ([parts], [buf]). *)
Definition flush (parts : list gostring) (buf : gostring) : list gostring :=
  let part := TrimSpace buf in
  if eqs part [] then parts else parts ++ [part].

(** The [for _, r := range paramStr] loop of [SplitGenericType]; the state
    is ([parts], [buf], [depth]).  [depth] is a Go [int]; it stays within
    the length of the text, far from the wrap-around. *)
Fixpoint split_loop (paramStr : gostring) (parts : list gostring)
    (buf : gostring) (depth : Z) : list gostring * gostring :=
  match paramStr with
  | [] => (parts, buf)
  | r :: rest =>
      if (r =? 44)%N then
        if (depth =? 0)%Z then split_loop rest (flush parts buf) [] depth
        else split_loop rest parts (buf ++ [r]) depth
      else if (r =? 91)%N then split_loop rest parts (buf ++ [r]) (depth + 1)%Z
      else if (r =? 93)%N then split_loop rest parts (buf ++ [r]) (depth - 1)%Z
      else split_loop rest parts (buf ++ [r]) depth
  end.

(** [SplitGenericType]; a [nil] slice is the empty list. *)
Definition SplitGenericType (goType : gostring) : gostring * list gostring :=
  let lidx := Index goType (go "[") in
  let ridx := LastIndex goType (go "]") in
  if ((lidx <? 0) || (ridx <=? lidx))%Z then (goType, [])
  else
    let base := slice goType 0 lidx in
    let paramStr := slice goType (lidx + 1) ridx in
    if eqs paramStr [] then (base, [[]])
    else
      let '(parts, buf) := split_loop paramStr [] [] 0%Z in
      (base, flush parts buf).

Definition checkBasicTypes (goType : gostring) : gostring :=
  if eqs goType (go "string") then go "string"
  else if bool_decide (goType ∈
            [go "int"; go "int8"; go "int16"; go "int32"; go "int64";
             go "uint"; go "uint8"; go "uint16"; go "uint32"; go "uint64";
             go "byte"; go "rune"; go "float32"; go "float64"])
       then go "number"
  else if eqs goType (go "bool") then go "boolean"
  else if eqs goType (go "time.Time") then go "string"
  else if eqs goType (go "url.URL") then go "string"
  else if bool_decide (goType ∈
            [go "interface{}"; go "*interface{}";
             go "interface {}"; go "*interface {}"])
       then go "any"
  else if bool_decide (goType ∈ [go "complex64"; go "complex128"]) then go "any"
  else if bool_decide (goType ∈
            [go "decimal.Decimal"; go "primitive.ObjectID";
             go "primitive.Decimal128"; go "uuid.UUID"; go "pgtype.UUID"])
       then go "string"
  else if eqs goType (go "sql.NullString") then go "string | null"
  else if eqs goType (go "sql.NullInt64") then go "number | null"
  else if eqs goType (go "pq.NullTime") then go "string | null"
  else if eqs goType (go "sql.NullBool") then go "boolean | null"
  else if eqs goType (go "unsafe.Pointer") then go "any"
  else if eqs goType (go "error") then go "Error"
  else goType.

Definition checkComplexTypes (goType : gostring) : gostring :=
  if Contains goType (go ".") then go "any"
  else if ContainsAny goType (go "*[]") then go "any"
  else [].

(** The key names of the first [case] of [parseMapType]. *)
Definition int_key_names : list gostring :=
  [go "int"; go "int8"; go "int16"; go "int32"; go "int64";
   go "uint"; go "uint8"; go "uint16"; go "uint32"; go "uint64"].

(** ** The state of the mapper *)

(** A computation that reads and writes [visited] and may run out of fuel. *)
Definition M (A : Type) : Type := visited_map -> option (A * visited_map).

Definition ret {A} (a : A) : M A := fun v => Some (a, v).
Definition bind {A B} (m : M A) (k : A -> M B) : M B :=
  fun v => match m v with
           | Some (a, v') => k a v'
           | None => None
           end.
Definition out_of_fuel {A} : M A := fun _ => None.

Notation "x <- m ;; k" := (bind m (fun x => k))
  (at level 100, m at next level, right associativity).

(** ** The recursive mapper *)

Section Mapper.

Variable aliasMap : gmap gostring gostring.
Variable typeParams : list gostring.
Variable structMap : gmap gostring StructInfo.
Variable typeParamMapping : gmap gostring gostring.

(** The key loop of [parseMapType]: [for { ... }] over [keyResolved] and
  [visitedKeys]. *)
Fixpoint resolve_key (fuel : nat) (visitedKeys : gmap gostring bool)
  (keyResolved : gostring) : option gostring :=
match fuel with
| O => None
| S n =>
    if vget visitedKeys keyResolved then Some keyResolved
    else
      let visitedKeys := <[keyResolved := true]> visitedKeys in
      match aliasMap !! keyResolved with
      | Some base =>
          if negb (eqs base keyResolved) then resolve_key n visitedKeys base
          else Some keyResolved
      | None => Some keyResolved
      end
end.

Section Open.

(** [GoTypeToTSType] with one unit of fuel less, and the fuel left for
the key loop. *)
Variable rec : gostring -> M gostring.
Variable n : nat.

Definition checkAliasTypes (goType : gostring) : M gostring :=
match aliasMap !! goType with
| Some base =>
  if eqs base goType then ret (go "any") else rec base
| None => ret []
end.

(** [for _, p := range params] of [CheckGenericPatterns]. *)
Fixpoint map_params (params : list gostring) (tsParams : list gostring)
: M (list gostring) :=
match params with
| [] => ret tsParams
| p :: ps => tsParam <- rec p ;; map_params ps (tsParams ++ [tsParam])
end.

Definition CheckGenericPatterns (goType : gostring) : M gostring :=
let '(base, params) := SplitGenericType goType in
tsParams <- map_params params [] ;;
base <- match aliasMap !! base with
      | Some baseAlias =>
          if negb (eqs baseAlias base) then rec baseAlias else ret base
      | None => ret base
      end ;;
ret (base ++ go "<" ++ Join tsParams (go ", ") ++ go ">").

Definition parseMapType (goType : gostring) : M gostring :=
let inner := drop (length (go "map[")) goType in
match SplitN2 inner (go "]") with
| None => ret (go "any")
| Some (part0, part1) =>
  let rawKey := TrimSpace part0 in
  let rawVal := TrimSpace part1 in
  keyTS <-
    (if HasPrefix rawKey (go "struct{") then ret (go "string")
     else if bool_decide (rawKey ∈ int_key_names)
          then ret (go "number")
     else
       match resolve_key n ∅ rawKey with
       | None => out_of_fuel
       | Some keyResolved =>
           keyTS <- rec keyResolved ;;
           if negb (eqs keyTS (go "string"))
              && negb (eqs keyTS (go "number"))
              && negb (eqs keyTS (go "symbol"))
           then ret (go "string") else ret keyTS
       end) ;;
  valTS <- rec rawVal ;;
  let valTS :=
    if Contains valTS (go "|") && negb (HasSuffix valTS (go "[]"))
       && negb (HasPrefix valTS (go "("))
    then go "(" ++ valTS ++ go ")" else valTS in
  ret (go "{ [key: " ++ keyTS ++ go "]: " ++ valTS ++ go " }")
end.

Definition minFieldParts : nat := 2.

(** [for _, f := range fields] of [ParseStructType]. *)
Fixpoint struct_fields (fields : list gostring) (tsFields : list gostring)
: M (list gostring) :=
match fields with
| [] => ret tsFields
| f :: fs =>
  let f := TrimSpace f in
  if eqs f [] then struct_fields fs tsFields
  else
    let parts := Fields f in
    if minFieldParts <=? length parts then
      t <- rec (Join (tail parts) (go " ")) ;;
      struct_fields fs (tsFields ++ [hd [] parts ++ go ": " ++ t])
    else struct_fields fs (tsFields ++ [go "unknown: any"])
end.

Definition ParseStructType (goType : gostring) : M gostring :=
let body := TrimPrefix goType (go "struct{") in
let body := TrimSuffix body (go "}") in
let fields := Split1 body (ch ";") in
tsFields <- struct_fields fields [] ;;
ret (go "{ " ++ Join tsFields (go "; ") ++ go " }").

(** The body of [GoTypeToTSType] after [visited[goType] = true], up to
the deferred [delete]. *)
Definition GoTypeToTSType_body (goType : gostring) : M gostring :=
match typeParamMapping !! goType with
| Some mapped => ret mapped
| None =>
if eqs goType [] then ret []
else
let special := checkSpecialCases goType in
if negb (eqs special []) then ret special
else if bool_decide (goType ∈ typeParams) then ret goType
else if HasPrefix goType (go "*") then
inner <- rec (drop 1 goType) ;;
ret (inner ++ go " | null")
else if HasPrefix goType (go "[]") then
elem <- rec (drop 2 goType) ;;
let elem :=
  if HasPrefix elem (go "{ [key:") && negb (HasPrefix elem (go "("))
  then go "(" ++ elem ++ go ")" else elem in
ret (elem ++ go "[]")
else if HasPrefix goType (go "map[") then parseMapType goType
else if HasPrefix goType (go "struct{") then ParseStructType goType
else if genericTypePattern goType then CheckGenericPatterns goType
else
aliasResult <- checkAliasTypes goType ;;
if negb (eqs aliasResult []) then ret aliasResult
else
  let basicResult := checkBasicTypes goType in
  if negb (eqs basicResult goType) then ret basicResult
  else
    let complexResult := checkComplexTypes goType in
    if negb (eqs complexResult []) then ret complexResult
    else if IsAliasName goType then
      if IsUserDefinedStruct goType structMap then ret goType
      else ret goType
    else ret goType
end.

(** One call of [GoTypeToTSType]: trim, the cycle guard, the body, the
deferred [delete(visited, goType)]. *)
Definition GoTypeToTSType_step (goType : gostring) : M gostring :=
let goType := TrimSpace goType in
fun visited =>
if vget visited goType then Some (go "any", visited)
else
  match GoTypeToTSType_body goType (<[goType := true]> visited) with
  | Some (r, visited') => Some (r, delete goType visited')
  | None => None
  end.

End Open.

(** [GoTypeToTSType]: each call and each iteration of the key loop takes
  one unit of fuel. *)
Fixpoint GoTypeToTSType (fuel : nat) (goType : gostring) : M gostring :=
match fuel with
| O => out_of_fuel
| S n => GoTypeToTSType_step (GoTypeToTSType n) n goType
end.

End Mapper.

(** ** Vocabulary of the statements *)

(** A name that carries none of the sigils the mapper dispatches on: not
    empty, already trimmed, not the literal [func], and without any of the
    characters of [*[{]. *)
Definition is_plain_name (s : gostring) : bool :=
  negb (eqs s []) && eqs (TrimSpace s) s && negb (eqs s (go "func"))
  && forallb (fun r => negb (bool_decide (r ∈ go "*[{"))) s.

(** The splitter as the specification words it: the parameter text cut at
    the commas of bracket depth 0. *)
Fixpoint top_level_split (s : gostring) (depth : Z) : list gostring :=
  match s with
  | [] => [[]]
  | r :: rest =>
      if ((r =? 44)%N && (depth =? 0)%Z)%bool then
        [] :: top_level_split rest depth
      else
        let depth' :=
          if (r =? 91)%N then (depth + 1)%Z
          else if (r =? 93)%N then (depth - 1)%Z
          else depth in
        match top_level_split rest depth' with
        | w :: ws => (r :: w) :: ws
        | [] => [[r]]
        end
  end.

(** Trimmed, with the empty parts dropped. *)
Definition trimmed_parts (segs : list gostring) : list gostring :=
  filter (fun p => p <> []) (TrimSpace <$> segs).

(** What the last three rules of [GoTypeToTSType] (basic-type table,
    foreign-type heuristic, pass-through) make of a name. *)
Definition fallback_ts (goType : gostring) : gostring :=
  if negb (eqs (checkBasicTypes goType) goType) then checkBasicTypes goType
  else if negb (eqs (checkComplexTypes goType) []) then checkComplexTypes goType
  else goType.

(** The texts the basic-type table produces. *)
Definition basic_ts_values : list gostring :=
  [go "string"; go "number"; go "boolean"; go "any"; go "string | null";
   go "number | null"; go "boolean | null"; go "Error"].

(** The value text of an index signature as [parseMapType] writes it: a
    union that is neither an array nor parenthesized gets parentheses. *)
Definition wrap_union (valTS : gostring) : gostring :=
  if Contains valTS (go "|") && negb (HasSuffix valTS (go "[]"))
     && negb (HasPrefix valTS (go "("))
  then go "(" ++ valTS ++ go ")" else valTS.


(** The bracket depth after a text, from depth [d]. *)
Fixpoint end_depth (s : gostring) (d : Z) : Z :=
  match s with
  | [] => d
  | r :: rest =>
      end_depth rest
        (if (r =? 91)%N then (d + 1)%Z
         else if (r =? 93)%N then (d - 1)%Z else d)
  end.

(** A parameter text that survives the splitter: not empty, trimmed,
    without a comma at bracket depth 0, and with its brackets closed. *)
Definition is_atomic_param (p : gostring) : bool :=
  negb (eqs p []) && eqs (TrimSpace p) p
  && bool_decide (top_level_split p 0%Z = [p])
  && (end_depth p 0%Z =? 0)%Z.

(** The three key kinds of an index signature. *)
Definition is_index_key (k : gostring) : bool :=
  eqs k (go "string") || eqs k (go "number") || eqs k (go "symbol").

(** What a call may do to [visited]: drop keys, and never change what
    [visited[k]] reads. *)
Definition frame (v v' : visited_map) : Prop :=
  v' ⊆ v /\ forall k, vget v k = vget v' k.

Definition preserves {A : Type} (m : M A) : Prop :=
  forall v a v', m v = Some (a, v') -> frame v v'.

(** [m'] answers wherever [m] does, with the same answer. *)
Definition refines {A : Type} (m m' : M A) : Prop :=
  forall v x, m v = Some x -> m' v = Some x.

(** [m] answers from every state that reads like [v0], and leaves such a
    state. *)
Definition answers {A : Type} (v0 : visited_map) (m : M A) : Prop :=
  forall v, (forall k, vget v0 k = vget v k) ->
    exists a v', m v = Some (a, v') /\ (forall k, vget v0 k = vget v' k).

Section Measure.

Variable aliasMap : gmap gostring gostring.

(** The expressions an alias lookup can jump to, as a callee sees them. *)
Definition alias_targets : gset gostring :=
list_to_set (TrimSpace <$> (map_to_list aliasMap).*2).

Definition max_target_len : nat :=
max_list (length <$> elements alias_targets).

(** The alias targets that are not being resolved. *)
Definition pending (v : visited_map) : gset gostring :=
filter (fun s => vget v s = false) alias_targets.

(** Fuel that is enough for [GoTypeToTSType goType] from [visited]. *)
Definition fuel_bound (goType : gostring) (visited : visited_map) : nat :=
length (TrimSpace goType)
+ size (pending (<[TrimSpace goType := true]> visited)) * S max_target_len
+ size aliasMap + 2.

(** One step of the key loop: from a key to its alias value, when that is
    another text. *)
Definition alias_step (a b : gostring) : Prop :=
  aliasMap !! a = Some b /\ b <> a.

(** Fuel that is enough for a direct call of [ParseStructType] or
    [CheckGenericPatterns] on [goType]. *)
Definition entry_fuel (goType : gostring) (visited : visited_map) : nat :=
  S (length goType) + size (pending visited) * S max_target_len
  + size aliasMap + 2.

(** The alias keys the key loop has not seen. *)
Definition unseen_keys (visitedKeys : gmap gostring bool) : gset gostring :=
filter (fun s => vget visitedKeys s = false) (dom aliasMap).

(** A callee is within reach when its expression is shorter than the
  caller's or is an alias target. *)
Definition admissible (t c : gostring) : Prop :=
length (TrimSpace c) < length t \/ TrimSpace c ∈ alias_targets.

End Measure.

End Parser.

(** ** Package go2ts: [Convert] *)

Module Go2ts.

(** [GoFileData] and its parts, as [internal/parser] declares them. *)
Record StructField := { Name : gostring; Type_ : gostring; Tags : gostring }.
Record GoStruct :=
  { GSName : gostring; GSFields : list StructField; GSTypeParams : list gostring }.
Record TypeAlias :=
  { TAName : gostring; TATypeParams : list gostring; TAUnderlying : gostring }.
Record GoFileData := { Structs : list GoStruct; Aliases : list TypeAlias }.

(** A Go [error]: one a collaborator produced, or [fmt.Errorf(format, arg,
    cause)] with its [%w] verb, which keeps [cause] and puts its own text
    before it. *)
Inductive error : Type :=
  | External (id : nat)
  | Errorf (format : string) (arg : gostring) (cause : error).

(** [errors.Unwrap] *)
Definition Unwrap (e : error) : option error :=
  match e with
  | External _ => None
  | Errorf _ _ cause => Some cause
  end.

(** The calls [Convert] makes, in order. *)
Inductive event : Type :=
  | CallParseGoFiles (dir : gostring)
  | CallGenerateTypeScript (data : GoFileData) (outputFile : gostring).

Section Convert.

(** [parser.ParseGoFiles] reads the file system and
  [generator.GenerateTypeScript] writes to it; both are taken as they
  answer in the run at hand. *)
Variable ParseGoFiles : gostring -> GoFileData * option error.
Variable GenerateTypeScript : GoFileData -> gostring -> option error.

(** [Convert]: the returned [error] ([None] is [nil]) and the calls made. *)
Definition Convert (inputDir outputFile : gostring)
  : option error * list event :=
let '(data, err) := ParseGoFiles inputDir in
match err with
| Some err =>
    (Some (Errorf "failed to parse Go files in %q: %w" inputDir err),
     [CallParseGoFiles inputDir])
| None =>
    match GenerateTypeScript data outputFile with
    | Some err =>
        (Some (Errorf "failed to generate TypeScript file %q: %w"
                 outputFile err),
         [CallParseGoFiles inputDir;
          CallGenerateTypeScript data outputFile])
    | None =>
        (None,
         [CallParseGoFiles inputDir;
          CallGenerateTypeScript data outputFile])
    end
end.

End Convert.

End Go2ts.

(** ** [ExprToString] and the declaration walk of [ParseGoFiles] *)

Module Ast.
Import Parser Go2ts.

(** [go/ast] expressions, as far as [ExprToString] looks at them.  An
    array's length and an interface's methods are not looked at; every
    other kind of node is [OtherExpr].  A field carries its names, its
    type and its tag literal ([None] when [field.Tag] is [nil]). *)
Inductive Expr : Type :=
  | Ident (name : gostring)
  | StarExpr (x : Expr)
  | SelectorExpr (x : Expr) (sel : gostring)
  | ArrayType (sized : bool) (elt : Expr)
  | MapType (key value : Expr)
  | IndexExpr (x index : Expr)
  | IndexListExpr (x : Expr) (indices : list Expr)
  | InterfaceType
  | FuncType
  | StructType (fields : list Field)
  | OtherExpr
with Field : Type :=
  | mkField (names : list gostring) (typ : Expr) (tag : option gostring).

Definition FieldNames (f : Field) : list gostring :=
  match f with mkField names _ _ => names end.
Definition FieldType (f : Field) : Expr :=
  match f with mkField _ typ _ => typ end.
Definition FieldTag (f : Field) : option gostring :=
  match f with mkField _ _ tag => tag end.

(** [ExprToString] *)
Fixpoint ExprToString (expr : Expr) : gostring :=
  match expr with
  | Ident name => name
  | StarExpr x => go "*" ++ ExprToString x
  | SelectorExpr x sel => ExprToString x ++ go "." ++ sel
  | ArrayType _ elt => go "[]" ++ ExprToString elt
  | MapType key value =>
      go "map[" ++ ExprToString key ++ go "]" ++ ExprToString value
  | IndexExpr x index =>
      ExprToString x ++ go "[" ++ ExprToString index ++ go "]"
  | IndexListExpr x indices =>
      let indexes :=
        (fix each (l : list Expr) : list gostring :=
           match l with
           | [] => []
           | idx :: l' => ExprToString idx :: each l'
           end) indices in
      ExprToString x ++ go "[" ++ Join indexes (go ", ") ++ go "]"
  | InterfaceType => go "interface{}"
  | FuncType => go "func"
  | StructType fields =>
      match fields with
      | [] => go "struct{}"
      | _ =>
          let parts :=
            (fix each (l : list Field) : list gostring :=
               match l with
               | [] => []
               | mkField names typ _ :: l' =>
                   let typStr := ExprToString typ in
                   match names with
                   | [] => typStr :: each l'
                   | _ => (Join names (go ", ") ++ go " " ++ typStr) :: each l'
                   end
               end) fields in
          go "struct{ " ++ Join parts (go "; ") ++ go " }"
      end
  | OtherExpr => []
  end.

(** [strings.Trim(s, cutset)] *)
Definition Trim (s cutset : gostring) : gostring :=
  let cut := fun r => bool_decide (r ∈ cutset) in
  reverse (drop_while cut (reverse (drop_while cut s))).

(** A [*ast.TypeSpec]: name, type parameter list ([nil] is the empty
    list), type. *)
Record TypeSpec : Type :=
  { TSName : gostring; TSTypeParams : list Field; TSType : Expr }.

(** A top-level declaration: a [GenDecl] with [Tok == token.TYPE] and its
    specs, or anything else. *)
Inductive Decl : Type :=
  | TypeDecl (specs : list TypeSpec)
  | OtherDecl.

(** The names of a type parameter list, in order. *)
Definition type_param_names (params : list Field) : list gostring :=
  flat_map FieldNames params.

(** The [StructField]s one field of a struct type gives: one per name. *)
Definition struct_fields_of (field : Field) : list StructField :=
  let fieldType := ExprToString (FieldType field) in
  let tag := match FieldTag field with
             | Some value => Trim value (go "`")
             | None => []
             end in
  (fun name => {| Name := name; Type_ := fieldType; Tags := tag |})
    <$> FieldNames field.

(** The body of [for _, spec := range genDecl.Specs]. *)
Definition add_spec (data : GoFileData) (typeSpec : TypeSpec) : GoFileData :=
  let typeParams := type_param_names (TSTypeParams typeSpec) in
  match TSType typeSpec with
  | StructType fields =>
      {| Structs := Structs data ++
                    [{| GSName := TSName typeSpec;
                        GSFields := flat_map struct_fields_of fields;
                        GSTypeParams := typeParams |}];
         Aliases := Aliases data |}
  | other =>
      {| Structs := Structs data;
         Aliases := Aliases data ++
                    [{| TAName := TSName typeSpec;
                        TATypeParams := typeParams;
                        TAUnderlying := ExprToString other |}] |}
  end.

(** The body of [for _, decl := range node.Decls]. *)
Definition add_decl (data : GoFileData) (decl : Decl) : GoFileData :=
  match decl with
  | TypeDecl specs => foldl add_spec data specs
  | OtherDecl => data
  end.

(** [filepath.Ext], with [/] as the path separator. *)
Fixpoint ext_scan (reversed acc : gostring) : gostring :=
  match reversed with
  | [] => []
  | c :: rest =>
      if (c =? 47)%N then []
      else if (c =? 46)%N then c :: acc
      else ext_scan rest (c :: acc)
  end.
Definition Ext (path : gostring) : gostring := ext_scan (reverse path) [].

(** The guard of the walk function: the paths it returns [nil] for at
    once. *)
Definition skipped (path : gostring) : bool :=
  negb (eqs (Ext path) (go ".go")) || HasSuffix path (go "_test.go").

Section Walk.

(** [parser.ParseFile] on a path: an error, or the declarations of the
    file. *)
Variable ParseFile : gostring -> error + list Decl.

(** The function [ParseGoFiles] hands to [filepath.Walk], on the data
    collected so far. *)
Definition walk_fn (data : GoFileData) (path : gostring)
    : GoFileData * option error :=
  if skipped path then (data, None)
  else match ParseFile path with
       | inl parseErr => (data, Some parseErr)
       | inr decls => (foldl add_decl data decls, None)
       end.

(** [filepath.Walk] over the paths it visits, in its order; it stops at
    the first error the function returns. *)
Fixpoint walk (data : GoFileData) (paths : list gostring)
    : GoFileData * option error :=
  match paths with
  | [] => (data, None)
  | path :: rest =>
      match walk_fn data path with
      | (data', Some err) => (data', Some err)
      | (data', None) => walk data' rest
      end
  end.

(** [ParseGoFiles], given the paths [filepath.Walk] visits under [dir]. *)
Definition ParseGoFiles (paths : list gostring) : GoFileData * option error :=
  walk {| Structs := []; Aliases := [] |} paths.

End Walk.

(** The type specs of the [type] declarations, in order. *)
Definition specs_of (decls : list Decl) : list TypeSpec :=
  flat_map (fun d => match d with TypeDecl specs => specs | OtherDecl => [] end)
    decls.

Definition is_struct_spec (spec : TypeSpec) : bool :=
  match TSType spec with StructType _ => true | _ => false end.

(** The [GoStruct] of a struct type spec and the [TypeAlias] of any other
    type spec. *)
Definition struct_of (spec : TypeSpec) : GoStruct :=
  {| GSName := TSName spec;
     GSFields := flat_map struct_fields_of
                   (match TSType spec with
                    | StructType fields => fields
                    | _ => []
                    end);
     GSTypeParams := type_param_names (TSTypeParams spec) |}.
Definition alias_of (spec : TypeSpec) : TypeAlias :=
  {| TAName := TSName spec;
     TATypeParams := type_param_names (TSTypeParams spec);
     TAUnderlying := ExprToString (TSType spec) |}.

(** Pointers and slices over a leaf, the shape of most field types. *)
Inductive tower : Expr -> Expr -> Prop :=
  | tower_leaf leaf : tower leaf leaf
  | tower_star leaf e : tower leaf e -> tower leaf (StarExpr e)
  | tower_array leaf sized e :
      tower leaf e -> tower leaf (ArrayType sized e).

(** The target text of a tower over a leaf mapped to [leaf_ts]. *)
Fixpoint tower_ts (leaf_ts : gostring) (e : Expr) : gostring :=
  match e with
  | StarExpr x => tower_ts leaf_ts x ++ go " | null"
  | ArrayType _ elt => tower_ts leaf_ts elt ++ go "[]"
  | _ => leaf_ts
  end.

End Ast.

(** * Properties *)

(** ** Lengths of the string operations *)

Module GoStrFacts.

Lemma length_drop_while {A} (p : A -> bool) (l : list A) :
  length (drop_while p l) <= length l.
Proof.
  induction l as [|x l IH]; simpl; [lia|].
  destruct (p x); simpl; lia.
Qed.

Lemma length_TrimSpace (s : gostring) : length (TrimSpace s) <= length s.
Proof.
  unfold TrimSpace, TrimRight, TrimLeft.
  rewrite length_reverse.
  etransitivity; [apply length_drop_while|].
  rewrite length_reverse. apply length_drop_while.
Qed.

Lemma HasPrefix_app (s p : gostring) :
  HasPrefix s p = true -> s = p ++ drop (length p) s.
Proof.
  revert s. induction p as [|a p IH]; intros s H; simpl in *.
  - by rewrite drop_0.
  - destruct s as [|b s]; [discriminate|].
    apply andb_true_iff in H as [Hab Hp].
    apply bool_decide_eq_true in Hab. subst b.
    simpl. f_equal. by apply IH.
Qed.

Lemma HasPrefix_length (s p : gostring) :
  HasPrefix s p = true -> length p <= length s.
Proof.
  intros H. apply HasPrefix_app in H.
  apply (f_equal length) in H. rewrite length_app in H. lia.
Qed.

Lemma HasPrefix_app_true (p s : gostring) : HasPrefix (p ++ s) p = true.
Proof.
  induction p as [|a p IH]; simpl; [done|].
  rewrite IH. by rewrite bool_decide_eq_true_2.
Qed.

Lemma Index_bounds (s sub : gostring) :
  (-1 <= Index s sub <= Z.of_nat (length s))%Z.
Proof.
  induction s as [|c s IH]; simpl.
  - destruct (HasPrefix [] sub); lia.
  - destruct (HasPrefix (c :: s) sub); [lia|].
    destruct (Index s sub <? 0)%Z eqn:E; lia.
Qed.

Lemma SplitN2_length (s sep a b : gostring) :
  SplitN2 s sep = Some (a, b) -> length a <= length s /\ length b <= length s.
Proof.
  unfold SplitN2. destruct (Index s sep <? 0)%Z; [discriminate|].
  intros [= <- <-]. rewrite length_take, length_drop. lia.
Qed.

Lemma Split1_length (s : gostring) (sep : rune) (f : gostring) :
  f ∈ Split1 s sep -> length f <= length s.
Proof.
  revert f. induction s as [|c s IH]; intros f Hf; simpl in *.
  - apply list_elem_of_singleton in Hf. subst. simpl. lia.
  - destruct (bool_decide (c = sep)).
    + apply elem_of_cons in Hf as [->|Hf]; [simpl; lia|].
      specialize (IH _ Hf). lia.
    + destruct (Split1 s sep) as [|w ws] eqn:E.
      * apply list_elem_of_singleton in Hf. subst. simpl. lia.
      * apply elem_of_cons in Hf as [->|Hf].
        -- assert (length w <= length s) by (apply IH; left). simpl. lia.
        -- assert (length f <= length s) by (apply IH; by right). lia.
Qed.

Lemma fields_aux_weight (s cur : gostring) :
  weight (fields_aux s cur) <= length s + length cur + 1.
Proof.
  revert cur. induction s as [|c s IH]; intros cur; simpl.
  - destruct cur; simpl; [lia|]. rewrite length_reverse. simpl. lia.
  - destruct (IsSpace c).
    + destruct cur as [|x cur].
      * specialize (IH []). simpl in IH. lia.
      * simpl. rewrite length_reverse. specialize (IH []). simpl in *. lia.
    + specialize (IH (c :: cur)). simpl in IH. lia.
Qed.

Lemma Join_weight (l : list gostring) (sep : gostring) :
  length sep = 1 -> length (Join l sep) <= weight l.
Proof.
  intros Hsep. induction l as [|x l IH]; simpl; [lia|].
  destruct l as [|y l]; [simpl; lia|].
  rewrite !length_app, Hsep. simpl in *. lia.
Qed.

Lemma Fields_tail_length (f : gostring) :
  length (Join (tail (Fields f)) (go " ")) <= length f.
Proof.
  unfold Fields. pose proof (fields_aux_weight f []) as Hw.
  destruct (fields_aux f []) as [|x l]; simpl in *; [lia|].
  pose proof (Join_weight l (go " ") eq_refl). lia.
Qed.

Lemma TrimPrefix_length (s p : gostring) :
  HasPrefix s p = true -> length (TrimPrefix s p) + length p = length s.
Proof.
  intros H. unfold TrimPrefix. rewrite H, length_drop.
  apply HasPrefix_length in H. lia.
Qed.

Lemma TrimSuffix_length (s p : gostring) :
  length (TrimSuffix s p) <= length s.
Proof.
  unfold TrimSuffix. destruct (HasSuffix s p); [|lia].
  rewrite length_take. lia.
Qed.

Lemma slice_length (s : gostring) (i j : Z) :
  length (slice s i j) <= length s - Z.to_nat i.
Proof.
  unfold slice. rewrite length_take, length_drop. lia.
Qed.

Lemma eqs_true (a b : gostring) : eqs a b = true <-> a = b.
Proof. unfold eqs. apply bool_decide_eq_true. Qed.

Lemma eqs_false (a b : gostring) : eqs a b = false <-> a <> b.
Proof. unfold eqs. apply bool_decide_eq_false. Qed.

End GoStrFacts.
Import GoStrFacts.

(** ** The cycle guard is restored *)

Module GuardFacts.
Import Parser.

Lemma vget_insert (v : visited_map) (k k' : gostring) (b : bool) :
  vget (<[k := b]> v) k' = if decide (k = k') then b else vget v k'.
Proof. unfold vget. rewrite lookup_insert. by case_decide. Qed.

Lemma vget_delete (v : visited_map) (k k' : gostring) :
  vget (delete k v) k' = if decide (k = k') then false else vget v k'.
Proof. unfold vget. rewrite lookup_delete. by case_decide. Qed.

Lemma vget_empty (k : gostring) : vget ∅ k = false.
Proof. unfold vget. by rewrite lookup_empty. Qed.

Lemma frame_refl (v : visited_map) : frame v v.
Proof. split; [done|]. done. Qed.

Lemma frame_trans (v1 v2 v3 : visited_map) :
  frame v1 v2 -> frame v2 v3 -> frame v1 v3.
Proof.
  intros [S1 E1] [S2 E2]. split.
  - by etransitivity.
  - intros k. by rewrite E1.
Qed.

(** The deferred [delete] undoes the insertion made on entry. *)
Lemma frame_guard (v v' : visited_map) (t : gostring) :
  vget v t = false -> frame (<[t := true]> v) v' -> frame v (delete t v').
Proof.
  intros Ht [Hs He]. split.
  - apply map_subseteq_spec. intros k b Hk.
    apply lookup_delete_Some in Hk as [Hne Hk].
    eapply lookup_weaken in Hk; [|exact Hs].
    by rewrite lookup_insert_ne in Hk.
  - intros k. rewrite vget_delete. case_decide as Hd.
    + by subst.
    + specialize (He k). rewrite vget_insert in He. by case_decide.
Qed.

(** A map whose entries are all [true] is restored exactly. *)
Lemma frame_all_true (v v' : visited_map) :
  (forall k b, v !! k = Some b -> b = true) -> frame v v' -> v' = v.
Proof.
  intros Hall [Hs He]. apply map_eq. intros k.
  destruct (v !! k) as [b|] eqn:Hk.
  - pose proof (Hall _ _ Hk) as ->.
    specialize (He k). unfold vget in He. rewrite Hk in He. simpl in He.
    destruct (v' !! k) as [b'|] eqn:Hk'; simpl in He; [by subst|done].
  - destruct (v' !! k) as [b'|] eqn:Hk'; [|done].
    eapply lookup_weaken in Hk'; [|exact Hs]. congruence.
Qed.

Section Combinators.
Context {A B : Type}.

Lemma preserves_ret (a : A) : preserves (ret a).
Proof. intros v a' v' [= <- <-]. apply frame_refl. Qed.

Lemma preserves_out_of_fuel : preserves (@out_of_fuel A).
Proof. intros v a v' H. discriminate. Qed.

Lemma preserves_bind (m : M A) (k : A -> M B) :
preserves m -> (forall a, preserves (k a)) -> preserves (bind m k).
Proof.
intros Hm Hk v b v' H. unfold bind in H.
destruct (m v) as [[a v1]|] eqn:E; [|discriminate].
eapply frame_trans; [eapply Hm, E| eapply Hk, H].
Qed.

Lemma refines_refl (m : M A) : refines m m.
Proof. by intros v x H. Qed.

Lemma refines_bind (m m' : M A) (k k' : A -> M B) :
refines m m' -> (forall a, refines (k a) (k' a)) ->
refines (bind m k) (bind m' k').
Proof.
intros Hm Hk v x H. unfold bind in *.
destruct (m v) as [[a v1]|] eqn:E; [|discriminate].
rewrite (Hm _ _ E). by apply Hk.
Qed.

Lemma answers_ret (v0 : visited_map) (a : A) : answers v0 (ret a).
Proof. intros v Hv. by exists a, v. Qed.

Lemma answers_bind (v0 : visited_map) (m : M A) (k : A -> M B) :
answers v0 m -> (forall a, answers v0 (k a)) -> answers v0 (bind m k).
Proof.
intros Hm Hk v Hv. destruct (Hm v Hv) as (a & v1 & E & Hv1).
destruct (Hk a v1 Hv1) as (b & v2 & E2 & Hv2).
exists b, v2. unfold bind. by rewrite E.
Qed.
End Combinators.

Create HintDb mapper.
#[global] Hint Resolve preserves_ret preserves_out_of_fuel refines_refl
  answers_ret : mapper.

Section Frame.
Variable aliasMap : gmap gostring gostring.
Variable typeParams : list gostring.
Variable structMap : gmap gostring StructInfo.
Variable typeParamMapping : gmap gostring gostring.
Variable rec : gostring -> M gostring.
Variable n : nat.
Hypothesis Hrec : forall g, preserves (rec g).

Lemma checkAliasTypes_preserves g :
preserves (checkAliasTypes aliasMap rec g).
Proof.
unfold checkAliasTypes. destruct (aliasMap !! g); [|auto with mapper].
destruct (eqs _ _); auto with mapper.
Qed.

Lemma map_params_preserves params acc :
preserves (map_params rec params acc).
Proof.
revert acc. induction params as [|p ps IH]; intros acc; simpl.
- auto with mapper.
- apply preserves_bind; auto.
Qed.

Lemma CheckGenericPatterns_preserves g :
preserves (CheckGenericPatterns aliasMap rec g).
Proof.
unfold CheckGenericPatterns. destruct (SplitGenericType g) as [base params].
apply preserves_bind; [apply map_params_preserves|]. intros tsParams.
apply preserves_bind; [|auto with mapper].
destruct (aliasMap !! base); [|auto with mapper].
destruct (negb _); auto with mapper.
Qed.

Lemma parseMapType_preserves g :
preserves (parseMapType aliasMap rec n g).
Proof.
unfold parseMapType. destruct (SplitN2 _ _) as [[p0 p1]|]; [|auto with mapper].
apply preserves_bind.
- destruct (HasPrefix _ _); [auto with mapper|].
  destruct (bool_decide _); [auto with mapper|].
  destruct (resolve_key _ _ _ _); [|auto with mapper].
  apply preserves_bind; [auto|]. intros keyTS.
  destruct (_ && _); auto with mapper.
- intros keyTS. apply preserves_bind; auto with mapper.
Qed.

Lemma struct_fields_preserves fields acc :
preserves (struct_fields rec fields acc).
Proof.
revert acc. induction fields as [|f fs IH]; intros acc;
  cbn [struct_fields].
- auto with mapper.
- destruct (eqs _ _); [auto|].
  destruct (minFieldParts <=? _); [|auto].
  apply preserves_bind; auto.
Qed.

Lemma ParseStructType_preserves g : preserves (ParseStructType rec g).
Proof.
unfold ParseStructType.
apply preserves_bind; [apply struct_fields_preserves|auto with mapper].
Qed.

Lemma GoTypeToTSType_body_preserves g :
preserves (GoTypeToTSType_body aliasMap typeParams structMap
             typeParamMapping rec n g).
Proof.
unfold GoTypeToTSType_body.
destruct (typeParamMapping !! g); [auto with mapper|].
destruct (eqs g []); [auto with mapper|].
destruct (negb _); [auto with mapper|].
destruct (bool_decide _); [auto with mapper|].
destruct (HasPrefix g (go "*")).
{ apply preserves_bind; auto with mapper. }
destruct (HasPrefix g (go "[]")).
{ apply preserves_bind; auto with mapper. }
destruct (HasPrefix g (go "map[")); [apply parseMapType_preserves|].
destruct (HasPrefix g (go "struct{")); [apply ParseStructType_preserves|].
destruct (genericTypePattern g); [apply CheckGenericPatterns_preserves|].
apply preserves_bind; [apply checkAliasTypes_preserves|]. intros r.
repeat (destruct (negb _); [auto with mapper|]).
destruct (IsAliasName g); [|auto with mapper].
destruct (IsUserDefinedStruct _ _); auto with mapper.
Qed.

Lemma GoTypeToTSType_step_preserves g :
preserves (GoTypeToTSType_step aliasMap typeParams structMap
             typeParamMapping rec n g).
Proof.
intros v r v' H. unfold GoTypeToTSType_step in H.
destruct (vget v (TrimSpace g)) eqn:Hv.
- injection H as <- <-. apply frame_refl.
- destruct (GoTypeToTSType_body _ _ _ _ _ _ _ _) as [[r1 v1]|] eqn:E;
    [|discriminate].
  injection H as <- <-.
  apply frame_guard; [done|].
  eapply GoTypeToTSType_body_preserves, E.
Qed.
End Frame.

Lemma GoTypeToTSType_preserves aliasMap typeParams structMap typeParamMapping
    fuel g :
  preserves (GoTypeToTSType aliasMap typeParams structMap typeParamMapping
               fuel g).
Proof.
  revert g. induction fuel as [|n IH]; intros g; simpl.
  - apply preserves_out_of_fuel.
  - by apply GoTypeToTSType_step_preserves.
Qed.

End GuardFacts.

(** ** More fuel never changes an answer *)

Module FuelFacts.
Import Parser GuardFacts.

Lemma refines_out_of_fuel {A : Type} (m : M A) : refines out_of_fuel m.
Proof. intros v x H. discriminate. Qed.

Lemma resolve_key_mono aliasMap (n n' : nat) vk k r :
  n <= n' -> resolve_key aliasMap n vk k = Some r ->
  resolve_key aliasMap n' vk k = Some r.
Proof.
  revert n' vk k. induction n as [|n IH]; intros n' vk k Hle H; [discriminate|].
  destruct n' as [|n']; [lia|]. simpl in *.
  destruct (vget vk k); [done|].
  destruct (aliasMap !! k) as [base|]; [|done].
  destruct (negb _); [|done]. apply IH; [lia|done].
Qed.

Section Mono.
Variable aliasMap : gmap gostring gostring.
Variable typeParams : list gostring.
Variable structMap : gmap gostring StructInfo.
Variable typeParamMapping : gmap gostring gostring.
Variables rec rec' : gostring -> M gostring.
Variables n n' : nat.
Hypothesis Hrec : forall g, refines (rec g) (rec' g).
Hypothesis Hn : n <= n'.

Lemma checkAliasTypes_mono g :
refines (checkAliasTypes aliasMap rec g) (checkAliasTypes aliasMap rec' g).
Proof.
unfold checkAliasTypes. destruct (aliasMap !! g); [|apply refines_refl].
destruct (eqs _ _); [apply refines_refl|apply Hrec].
Qed.

Lemma map_params_mono params acc :
refines (map_params rec params acc) (map_params rec' params acc).
Proof.
revert acc. induction params as [|p ps IH]; intros acc; cbn [map_params].
- apply refines_refl.
- apply refines_bind; auto.
Qed.

Lemma CheckGenericPatterns_mono g :
refines (CheckGenericPatterns aliasMap rec g)
        (CheckGenericPatterns aliasMap rec' g).
Proof.
unfold CheckGenericPatterns. destruct (SplitGenericType g) as [base params].
apply refines_bind; [apply map_params_mono|]. intros tsParams.
apply refines_bind; [|intros; apply refines_refl].
destruct (aliasMap !! base); [|apply refines_refl].
destruct (negb _); [apply Hrec|apply refines_refl].
Qed.

Lemma parseMapType_mono g :
refines (parseMapType aliasMap rec n g) (parseMapType aliasMap rec' n' g).
Proof.
unfold parseMapType.
destruct (SplitN2 _ _) as [[p0 p1]|]; [|apply refines_refl].
apply refines_bind.
- destruct (HasPrefix _ _); [apply refines_refl|].
  destruct (bool_decide _); [apply refines_refl|].
  destruct (resolve_key aliasMap n _ _) as [k|] eqn:E;
    [|apply refines_out_of_fuel].
  rewrite (resolve_key_mono _ _ _ _ _ _ Hn E).
  apply refines_bind; [apply Hrec|]. intros; apply refines_refl.
- intros keyTS. apply refines_bind; [apply Hrec|].
  intros; apply refines_refl.
Qed.

Lemma struct_fields_mono fields acc :
refines (struct_fields rec fields acc) (struct_fields rec' fields acc).
Proof.
revert acc. induction fields as [|f fs IH]; intros acc;
  cbn [struct_fields].
- apply refines_refl.
- destruct (eqs _ _); [auto|].
  destruct (minFieldParts <=? _); [|auto].
  apply refines_bind; auto.
Qed.

Lemma ParseStructType_mono g :
refines (ParseStructType rec g) (ParseStructType rec' g).
Proof.
unfold ParseStructType.
apply refines_bind; [apply struct_fields_mono|intros; apply refines_refl].
Qed.

Lemma GoTypeToTSType_body_mono g :
refines
  (GoTypeToTSType_body aliasMap typeParams structMap typeParamMapping
     rec n g)
  (GoTypeToTSType_body aliasMap typeParams structMap typeParamMapping
     rec' n' g).
Proof.
unfold GoTypeToTSType_body.
destruct (typeParamMapping !! g); [apply refines_refl|].
destruct (eqs g []); [apply refines_refl|].
destruct (negb _); [apply refines_refl|].
destruct (bool_decide _); [apply refines_refl|].
destruct (HasPrefix g (go "*")).
{ apply refines_bind; [apply Hrec|intros; apply refines_refl]. }
destruct (HasPrefix g (go "[]")).
{ apply refines_bind; [apply Hrec|intros; apply refines_refl]. }
destruct (HasPrefix g (go "map[")); [apply parseMapType_mono|].
destruct (HasPrefix g (go "struct{")); [apply ParseStructType_mono|].
destruct (genericTypePattern g); [apply CheckGenericPatterns_mono|].
apply refines_bind; [apply checkAliasTypes_mono|].
intros; apply refines_refl.
Qed.

Lemma GoTypeToTSType_step_mono g :
refines
  (GoTypeToTSType_step aliasMap typeParams structMap typeParamMapping
     rec n g)
  (GoTypeToTSType_step aliasMap typeParams structMap typeParamMapping
     rec' n' g).
Proof.
intros v x H. unfold GoTypeToTSType_step in *.
destruct (vget v (TrimSpace g)); [done|].
destruct (GoTypeToTSType_body _ _ _ _ rec _ _ _) as [[r1 v1]|] eqn:E;
  [|discriminate].
by rewrite (GoTypeToTSType_body_mono _ _ _ E).
Qed.
End Mono.

Lemma GoTypeToTSType_mono aliasMap typeParams structMap typeParamMapping
    (n n' : nat) g :
  n <= n' ->
  refines
    (GoTypeToTSType aliasMap typeParams structMap typeParamMapping n g)
    (GoTypeToTSType aliasMap typeParams structMap typeParamMapping n' g).
Proof.
  revert n' g. induction n as [|n IH]; intros n' g Hle.
  - apply refines_out_of_fuel.
  - destruct n' as [|n']; [lia|]. cbn [GoTypeToTSType].
    apply GoTypeToTSType_step_mono; [|lia].
    intros g'. apply IH. lia.
Qed.

End FuelFacts.

(** ** Termination *)

Module TerminationFacts.
Import Parser GuardFacts FuelFacts.

Section KeyLoop.
Variable aliasMap : gmap gostring gostring.

Lemma unseen_keys_size (vk : gmap gostring bool) :
size (unseen_keys aliasMap vk) <= size aliasMap.
Proof.
rewrite <- size_dom. apply subseteq_size.
intros x Hx. by apply elem_of_filter in Hx as [_ Hx].
Qed.

Lemma unseen_keys_insert (vk : gmap gostring bool) (k base : gostring) :
vget vk k = false -> aliasMap !! k = Some base ->
size (unseen_keys aliasMap (<[k := true]> vk))
< size (unseen_keys aliasMap vk).
Proof.
intros Hk Ha. apply subset_size. split.
- intros x Hx. apply elem_of_filter in Hx as [Hx Hd].
  apply elem_of_filter. split; [|done].
  rewrite vget_insert in Hx. by case_decide.
- intros Hsub. assert (Hin : k ∈ unseen_keys aliasMap vk).
  { apply elem_of_filter. split; [done|]. apply elem_of_dom. eauto. }
  apply Hsub in Hin. apply elem_of_filter in Hin as [Hx _].
  rewrite vget_insert in Hx. by case_decide.
Qed.

(** The key loop ends: every further iteration marks a new alias key. *)
Lemma resolve_key_total (n : nat) (vk : gmap gostring bool) (k : gostring) :
size (unseen_keys aliasMap vk) < n ->
exists r, resolve_key aliasMap n vk k = Some r.
Proof.
revert vk k. induction n as [|n IH]; intros vk k Hn; [lia|]. simpl.
destruct (vget vk k) eqn:Hk; [eauto|].
destruct (aliasMap !! k) as [base|] eqn:Ha; [|eauto].
destruct (negb _); [|eauto].
apply IH. pose proof (unseen_keys_insert vk k base Hk Ha). lia.
Qed.

(** The key it ends on is the key it started from or an alias value. *)
Lemma resolve_key_result (n : nat) (vk : gmap gostring bool) (k r : gostring) :
resolve_key aliasMap n vk k = Some r ->
r = k \/ exists a, aliasMap !! a = Some r.
Proof.
revert vk k. induction n as [|n IH]; intros vk k H; [discriminate|].
simpl in H. destruct (vget vk k); [left; congruence|].
destruct (aliasMap !! k) as [base|] eqn:Ha; [|left; congruence].
destruct (negb _); [|left; congruence].
apply IH in H as [->|H]; right; eauto.
Qed.

Lemma alias_target_elem (a b : gostring) :
aliasMap !! a = Some b -> TrimSpace b ∈ alias_targets aliasMap.
Proof.
intros H. unfold alias_targets. apply elem_of_list_to_set.
apply list_elem_of_fmap. exists b. split; [done|].
apply list_elem_of_fmap. exists (a, b). split; [done|].
by apply elem_of_map_to_list.
Qed.

Lemma alias_target_length (t : gostring) :
t ∈ alias_targets aliasMap -> length t <= max_target_len aliasMap.
Proof.
intros H. unfold max_target_len. apply max_list_elem_of_le.
apply list_elem_of_fmap. exists t. split; [done|].
by apply elem_of_elements.
Qed.

Lemma pending_ext (v v' : visited_map) :
(forall k, vget v k = vget v' k) -> pending aliasMap v = pending aliasMap v'.
Proof.
intros H. apply set_eq. intros x. unfold pending.
rewrite !elem_of_filter. by rewrite H.
Qed.

Lemma pending_insert_size (v : visited_map) (t : gostring) :
size (pending aliasMap (<[t := true]> v)) <= size (pending aliasMap v).
Proof.
apply subseteq_size. intros x Hx.
apply elem_of_filter in Hx as [Hx Hd]. apply elem_of_filter.
split; [|done]. rewrite vget_insert in Hx. by case_decide.
Qed.

Lemma pending_insert_strict (v : visited_map) (t : gostring) :
t ∈ alias_targets aliasMap -> vget v t = false ->
size (pending aliasMap (<[t := true]> v)) < size (pending aliasMap v).
Proof.
intros Ht Hv. apply subset_size. split.
- intros x Hx. apply elem_of_filter in Hx as [Hx Hd].
  apply elem_of_filter. split; [|done].
  rewrite vget_insert in Hx. by case_decide.
- intros Hsub. assert (Hin : t ∈ pending aliasMap v).
  { by apply elem_of_filter. }
  apply Hsub in Hin. apply elem_of_filter in Hin as [Hx _].
  rewrite vget_insert in Hx. by case_decide.
Qed.

Lemma callee_bound (t c : gostring) (v0 v : visited_map) (n : nat) :
length t + size (pending aliasMap v0) * S (max_target_len aliasMap)
  + size aliasMap + 2 <= S n ->
(forall k, vget v0 k = vget v k) ->
admissible aliasMap t c ->
vget v (TrimSpace c) = true \/ fuel_bound aliasMap c v <= n.
Proof.
intros Hb Hv Hadm. destruct (vget v (TrimSpace c)) eqn:Hc; [by left|].
right. unfold fuel_bound. rewrite (pending_ext v0 v Hv) in Hb.
destruct Hadm as [Hlt|Hin].
- pose proof (pending_insert_size v (TrimSpace c)). nia.
- pose proof (pending_insert_strict v (TrimSpace c) Hin Hc).
  pose proof (alias_target_length _ Hin). nia.
Qed.
End KeyLoop.

End TerminationFacts.

Module SplitFacts.
Import Parser.

Lemma flush_lengths (K : nat) (parts : list gostring) (buf : gostring) :
  Forall (fun p => length p <= K) parts -> length buf <= K ->
  Forall (fun p => length p <= K) (flush parts buf).
Proof.
  intros Hp Hb. unfold flush. destruct (eqs _ _); [done|].
  apply Forall_app. split; [done|]. apply Forall_singleton.
  pose proof (length_TrimSpace buf). lia.
Qed.

Lemma split_loop_lengths (K : nat) (paramStr : gostring) :
  forall parts buf depth parts' buf',
  Forall (fun p => length p <= K) parts ->
  length buf + length paramStr <= K ->
  split_loop paramStr parts buf depth = (parts', buf') ->
  Forall (fun p => length p <= K) parts' /\ length buf' <= K.
Proof.
  induction paramStr as [|r rest IH]; intros parts buf depth parts' buf' Hp Hb H;
    cbn [split_loop] in H.
  - injection H as <- <-. split; [done|]. simpl in Hb. lia.
  - simpl in Hb.
    assert (Hb' : length (buf ++ [r]) + length rest <= K).
    { rewrite length_app. simpl. lia. }
    destruct (r =? 44)%N.
    + destruct (depth =? 0)%Z.
      * eapply IH; [| |exact H].
        -- apply flush_lengths; [done|lia].
        -- simpl. lia.
      * eapply IH; [done|exact Hb'|exact H].
    + destruct (r =? 91)%N; [eapply IH; [done|exact Hb'|exact H]|].
      destruct (r =? 93)%N; eapply IH; [done|exact Hb'|exact H|done|exact Hb'|exact H].
Qed.

(** Every parameter the splitter returns is shorter than the text it split. *)
Lemma SplitGenericType_params_length (t p : gostring) :
  t <> [] -> p ∈ (SplitGenericType t).2 -> length p < length t.
Proof.
  intros Ht Hp. unfold SplitGenericType in Hp.
  assert (0 < length t) by (destruct t; [done|simpl; lia]).
  destruct (_ || _)%bool eqn:Hc; simpl in Hp.
  { by apply elem_of_nil in Hp. }
  apply orb_false_iff in Hc as [Hl Hr].
  apply Z.ltb_ge in Hl.
  set (paramStr := slice t (Index t (go "[") + 1) (LastIndex t (go "]"))) in *.
  assert (Hlen : length paramStr < length t).
  { pose proof (slice_length t (Index t (go "[") + 1) (LastIndex t (go "]"))).
    fold paramStr in H0. lia. }
  destruct (eqs paramStr []).
  { simpl in Hp. apply list_elem_of_singleton in Hp. by subst. }
  destruct (split_loop paramStr [] [] 0) as [parts buf] eqn:E.
  simpl in Hp.
  destruct (split_loop_lengths (length paramStr) paramStr [] [] 0%Z parts buf)
    as [Hparts Hbuf]; [done|simpl; lia|done|].
  pose proof (flush_lengths _ _ _ Hparts Hbuf) as Hall.
  rewrite Forall_forall in Hall. specialize (Hall _ Hp). simpl in Hall. lia.
Qed.

End SplitFacts.

Module TotalFacts.
Import Parser GuardFacts FuelFacts TerminationFacts SplitFacts.

Section Total.
Variable aliasMap : gmap gostring gostring.
Variable typeParams : list gostring.
Variable structMap : gmap gostring StructInfo.
Variable typeParamMapping : gmap gostring gostring.
Variable rec : gostring -> M gostring.
Variable n : nat.
Variable t : gostring.
Variable v0 : visited_map.

Hypothesis Hgood : forall c v,
vget v (TrimSpace c) = true \/ fuel_bound aliasMap c v <= n ->
exists r v', rec c v = Some (r, v').
Hypothesis Hpres : forall g, preserves (rec g).
Hypothesis Hn : size aliasMap < n.
Hypothesis Hb :
length t + size (pending aliasMap v0) * S (max_target_len aliasMap)
  + size aliasMap + 2 <= S n.

Lemma rec_answers c : admissible aliasMap t c -> answers v0 (rec c).
Proof.
intros Hadm v Hv.
destruct (Hgood c v) as (r & v' & E).
{ eapply callee_bound; eauto. }
exists r, v'. split; [done|].
destruct (Hpres _ _ _ _ E) as [_ He]. intros k. by rewrite Hv.
Qed.

Lemma shorter_admissible c : length c < length t -> admissible aliasMap t c.
Proof. intros H. left. pose proof (length_TrimSpace c). lia. Qed.

Lemma alias_admissible a b : aliasMap !! a = Some b -> admissible aliasMap t b.
Proof. intros H. right. by eapply alias_target_elem. Qed.

Lemma checkAliasTypes_answers g : answers v0 (checkAliasTypes aliasMap rec g).
Proof.
unfold checkAliasTypes. destruct (aliasMap !! g) as [base|] eqn:E;
  [|apply answers_ret].
destruct (eqs _ _); [apply answers_ret|].
eapply rec_answers, alias_admissible, E.
Qed.

Lemma map_params_answers params acc :
(forall p, p ∈ params -> length p < length t) ->
answers v0 (map_params rec params acc).
Proof.
revert acc. induction params as [|p ps IH]; intros acc Hall;
  cbn [map_params].
- apply answers_ret.
- apply answers_bind.
  + apply rec_answers, shorter_admissible, Hall. left.
  + intros a. apply IH. intros q Hq. apply Hall. by right.
Qed.

Lemma CheckGenericPatterns_answers :
t <> [] -> answers v0 (CheckGenericPatterns aliasMap rec t).
Proof.
intros Ht. unfold CheckGenericPatterns.
pose proof (SplitGenericType_params_length t) as Hlen.
destruct (SplitGenericType t) as [base params]. simpl in Hlen.
apply answers_bind; [apply map_params_answers; auto|]. intros tsParams.
apply answers_bind; [|intros; apply answers_ret].
destruct (aliasMap !! base) as [baseAlias|] eqn:E; [|apply answers_ret].
destruct (negb _); [|apply answers_ret].
eapply rec_answers, alias_admissible, E.
Qed.

Lemma parseMapType_answers :
HasPrefix t (go "map[") = true ->
answers v0 (parseMapType aliasMap rec n t).
Proof.
intros Hp. unfold parseMapType.
apply HasPrefix_length in Hp. simpl in Hp.
destruct (SplitN2 _ _) as [[p0 p1]|] eqn:Es; [|apply answers_ret].
apply SplitN2_length in Es as [H0 H1].
rewrite length_drop in H0, H1. simpl in H0, H1.
pose proof (length_TrimSpace p0). pose proof (length_TrimSpace p1).
apply answers_bind.
- destruct (HasPrefix _ _); [apply answers_ret|].
  destruct (bool_decide _); [apply answers_ret|].
  destruct (resolve_key_total aliasMap n ∅ (TrimSpace p0)) as [k Ek].
  { pose proof (unseen_keys_size aliasMap ∅). lia. }
  rewrite Ek. apply answers_bind.
  + apply rec_answers.
    apply resolve_key_result in Ek as [->|[a Ha]].
    * apply shorter_admissible. lia.
    * eapply alias_admissible, Ha.
  + intros keyTS. destruct (_ && _); apply answers_ret.
- intros keyTS. apply answers_bind; [|intros; apply answers_ret].
  apply rec_answers, shorter_admissible. lia.
Qed.

Lemma struct_fields_answers fields acc :
(forall f, f ∈ fields -> length f < length t) ->
answers v0 (struct_fields rec fields acc).
Proof.
revert acc. induction fields as [|f fs IH]; intros acc Hall;
  cbn [struct_fields].
- apply answers_ret.
- assert (Hfs : forall f', f' ∈ fs -> length f' < length t).
  { intros f' Hf'. apply Hall. by right. }
  destruct (eqs _ _); [auto|].
  destruct (minFieldParts <=? _); [|auto].
  apply answers_bind; [|auto].
  apply rec_answers, shorter_admissible.
  pose proof (Fields_tail_length (TrimSpace f)).
  pose proof (length_TrimSpace f).
  assert (length f < length t) by (apply Hall; left). lia.
Qed.

Lemma ParseStructType_answers :
HasPrefix t (go "struct{") = true -> answers v0 (ParseStructType rec t).
Proof.
intros Hp. unfold ParseStructType.
apply answers_bind; [|intros; apply answers_ret].
apply struct_fields_answers. intros f Hf.
apply Split1_length in Hf.
pose proof (TrimSuffix_length (TrimPrefix t (go "struct{")) (go "}")).
pose proof (TrimPrefix_length _ _ Hp) as Hl. simpl in Hl. lia.
Qed.

Lemma GoTypeToTSType_body_answers :
answers v0 (GoTypeToTSType_body aliasMap typeParams structMap
              typeParamMapping rec n t).
Proof.
unfold GoTypeToTSType_body.
destruct (typeParamMapping !! t); [apply answers_ret|].
destruct (eqs t []) eqn:Ht; [apply answers_ret|].
apply eqs_false in Ht.
assert (0 < length t) by (destruct t; [done|simpl; lia]).
destruct (negb _); [apply answers_ret|].
destruct (bool_decide _); [apply answers_ret|].
destruct (HasPrefix t (go "*")) eqn:Hptr.
{ apply answers_bind; [|intros; apply answers_ret].
  apply rec_answers, shorter_admissible. rewrite length_drop. lia. }
destruct (HasPrefix t (go "[]")) eqn:Hsl.
{ apply answers_bind; [|intros; apply answers_ret].
  apply rec_answers, shorter_admissible. rewrite length_drop. lia. }
destruct (HasPrefix t (go "map[")) eqn:Hmap;
  [by apply parseMapType_answers|].
destruct (HasPrefix t (go "struct{")) eqn:Hst;
  [by apply ParseStructType_answers|].
destruct (genericTypePattern t); [by apply CheckGenericPatterns_answers|].
apply answers_bind; [apply checkAliasTypes_answers|]. intros r.
repeat (destruct (negb _); [apply answers_ret|]).
destruct (IsAliasName t); [|apply answers_ret].
destruct (IsUserDefinedStruct _ _); apply answers_ret.
Qed.
End Total.

Section Termination.
Variable aliasMap : gmap gostring gostring.
Variable typeParams : list gostring.
Variable structMap : gmap gostring StructInfo.
Variable typeParamMapping : gmap gostring gostring.

Local Abbreviation mapType :=
(GoTypeToTSType aliasMap typeParams structMap typeParamMapping).

(** With [fuel_bound] units of fuel the mapper answers, whatever the alias
  table holds. *)
Lemma GoTypeToTSType_total (fuel : nat) (g : gostring) (v : visited_map) :
fuel_bound aliasMap g v <= fuel ->
exists r v', mapType fuel g v = Some (r, v').
Proof.
revert g v. induction fuel as [|n IH]; intros g v Hb.
{ unfold fuel_bound in Hb. lia. }
cbn [GoTypeToTSType]. unfold GoTypeToTSType_step.
destruct (vget v (TrimSpace g)) eqn:Hv; [eauto|].
assert (Hn : size aliasMap < n) by (unfold fuel_bound in Hb; lia).
destruct (GoTypeToTSType_body_answers aliasMap typeParams structMap
            typeParamMapping (mapType n) n (TrimSpace g)
            (<[TrimSpace g := true]> v)) with (v := <[TrimSpace g := true]> v)
  as (r & v' & E & _).
- intros c v1 [Hc|Hc]; [|by apply IH].
  destruct n as [|n']; [lia|]. cbn [GoTypeToTSType].
  unfold GoTypeToTSType_step. rewrite Hc. eauto.
- intros g'. apply GoTypeToTSType_preserves.
- done.
- exact Hb.
- done.
- rewrite E. eauto.
Qed.

(** Any two runs that answer agree. *)
Lemma GoTypeToTSType_deterministic (n n' : nat) g v x x' :
mapType n g v = Some x -> mapType n' g v = Some x' -> x = x'.
Proof.
intros H H'. destruct (Nat.le_ge_cases n n') as [Hle|Hle].
- apply (GoTypeToTSType_mono _ _ _ _ _ _ g Hle) in H. congruence.
- apply (GoTypeToTSType_mono _ _ _ _ _ _ g Hle) in H'. congruence.
Qed.
End Termination.

End TotalFacts.

(** ** What a call returns *)

Module ResultFacts.
Import Parser GuardFacts.

Lemma ret_result {A : Type} (P : A -> Prop) (a : A) v b v' :
  P a -> ret a v = Some (b, v') -> P b.
Proof. intros Ha [= <- _]. exact Ha. Qed.

Lemma bind_result {A B : Type} (P : B -> Prop) (m : M A) (k : A -> M B) :
  (forall a v b v', k a v = Some (b, v') -> P b) ->
  forall v b v', bind m k v = Some (b, v') -> P b.
Proof.
  intros Hk v b v' H. unfold bind in H.
  destruct (m v) as [[a v1]|]; [|discriminate]. eapply Hk, H.
Qed.

Lemma app_nonempty_r (a b : gostring) : b <> [] -> a ++ b <> [].
Proof. intros Hb E. by apply app_eq_nil in E as [_ E]. Qed.

Lemma checkBasicTypes_nonempty (t : gostring) :
  t <> [] -> checkBasicTypes t <> [].
Proof.
  intros Ht. unfold checkBasicTypes.
  repeat match goal with
         | |- context [if ?b then _ else _] => destruct b
         end; first [exact Ht | discriminate].
Qed.

Lemma checkSpecialCases_nonempty (t : gostring) :
  eqs (checkSpecialCases t) [] = false -> checkSpecialCases t <> [].
Proof. intros H. by apply eqs_false. Qed.

Section Body.
Variable aliasMap : gmap gostring gostring.
Variable typeParams : list gostring.
Variable structMap : gmap gostring StructInfo.
Variable typeParamMapping : gmap gostring gostring.
Variable rec : gostring -> M gostring.
Variable n : nat.

(** The body returns the empty text only for the empty expression or
  through the substitution map. *)
Lemma GoTypeToTSType_body_nonempty t v r v' :
t <> [] -> typeParamMapping !! t <> Some [] ->
GoTypeToTSType_body aliasMap typeParams structMap typeParamMapping
  rec n t v = Some (r, v') ->
r <> [].
Proof.
intros Ht Hm. unfold GoTypeToTSType_body.
destruct (typeParamMapping !! t) as [mapped|].
{ apply (ret_result (fun x : gostring => x <> [])). congruence. }
destruct (eqs t []) eqn:E0; [by apply eqs_true in E0|].
destruct (negb (eqs (checkSpecialCases t) [])) eqn:Es.
{ apply (ret_result (fun x : gostring => x <> [])). apply negb_true_iff in Es. by apply eqs_false. }
destruct (bool_decide _); [by apply (ret_result (fun x : gostring => x <> []))|].
destruct (HasPrefix t (go "*")).
{ revert v r v'. apply (bind_result (fun x : gostring => x <> [])). intros a v r v'.
  apply (ret_result (fun x : gostring => x <> [])). by apply app_nonempty_r. }
destruct (HasPrefix t (go "[]")).
{ revert v r v'. apply (bind_result (fun x : gostring => x <> [])). intros a v r v'.
  apply (ret_result (fun x : gostring => x <> [])). by apply app_nonempty_r. }
destruct (HasPrefix t (go "map[")).
{ unfold parseMapType. destruct (SplitN2 _ _) as [[p0 p1]|];
    [|by apply (ret_result (fun x : gostring => x <> []))].
  revert v r v'. apply (bind_result (fun x : gostring => x <> [])). intros keyTS.
  apply (bind_result (fun x : gostring => x <> [])). intros valTS v r v'. by apply (ret_result (fun x : gostring => x <> [])). }
destruct (HasPrefix t (go "struct{")).
{ unfold ParseStructType. revert v r v'. apply (bind_result (fun x : gostring => x <> [])).
  intros a v r v'. by apply (ret_result (fun x : gostring => x <> [])). }
destruct (genericTypePattern t).
{ unfold CheckGenericPatterns. destruct (SplitGenericType t) as [base ps].
  revert v r v'. apply (bind_result (fun x : gostring => x <> [])). intros tsParams.
  apply (bind_result (fun x : gostring => x <> [])). intros base' v r v'. apply (ret_result (fun x : gostring => x <> [])).
  apply app_nonempty_r. discriminate. }
revert v r v'. apply (bind_result (fun x : gostring => x <> [])). intros aliasResult v r v'.
destruct (negb (eqs aliasResult [])) eqn:Ea.
{ apply (ret_result (fun x : gostring => x <> [])). apply negb_true_iff in Ea. by apply eqs_false. }
destruct (negb (eqs (checkBasicTypes t) t)).
{ apply (ret_result (fun x : gostring => x <> [])). by apply checkBasicTypes_nonempty. }
destruct (negb (eqs (checkComplexTypes t) [])) eqn:Ec.
{ apply (ret_result (fun x : gostring => x <> [])). apply negb_true_iff in Ec. by apply eqs_false. }
destruct (IsAliasName t); [|by apply (ret_result (fun x : gostring => x <> []))].
destruct (IsUserDefinedStruct _ _); by apply (ret_result (fun x : gostring => x <> [])).
Qed.

Lemma GoTypeToTSType_step_nonempty g v r v' :
TrimSpace g <> [] -> typeParamMapping !! TrimSpace g <> Some [] ->
GoTypeToTSType_step aliasMap typeParams structMap typeParamMapping
  rec n g v = Some (r, v') ->
r <> [].
Proof.
intros Ht Hm H. unfold GoTypeToTSType_step in H.
destruct (vget v (TrimSpace g)).
{ injection H as <- _. discriminate. }
destruct (GoTypeToTSType_body _ _ _ _ _ _ _ _) as [[r1 v1]|] eqn:E;
  [|discriminate].
injection H as <- _. eapply GoTypeToTSType_body_nonempty; eauto.
Qed.
End Body.

End ResultFacts.

(** ** The dispatch on the first characters *)

Module DispatchFacts.
Import Parser GuardFacts.

Lemma HasPrefix_nonempty (t p : gostring) :
  HasPrefix t p = true -> p <> [] -> t <> [].
Proof. intros H Hp ->. destruct p; [done|discriminate]. Qed.

Lemma HasPrefix_head (t p : gostring) (c : rune) :
  HasPrefix t (c :: p) = true -> exists t', t = c :: t'.
Proof.
  destruct t as [|b t']; [discriminate|]. simpl. intros H.
  apply andb_true_iff in H as [H _]. apply bool_decide_eq_true in H.
  subst. eauto.
Qed.

Lemma pointer_not_special (t : gostring) :
  HasPrefix t (go "*") = true ->
  t ∉ [go "*time.Time"; go "*url.URL"] ->
  checkSpecialCases t = [].
Proof.
  intros Hp Hn. apply HasPrefix_head in Hp as [t' ->].
  unfold checkSpecialCases, eqs.
  rewrite !bool_decide_eq_false_2 by (done || discriminate). done.
Qed.

Lemma slice_not_special (t : gostring) :
  HasPrefix t (go "[]") = true -> t <> go "[]byte" ->
  checkSpecialCases t = [] /\ HasPrefix t (go "*") = false.
Proof.
  intros Hp Hn. apply HasPrefix_head in Hp as [t' ->].
  unfold checkSpecialCases, eqs. split; [|done].
  rewrite !bool_decide_eq_false_2; first done.
  - intros H. apply elem_of_cons in H as [H|H]; [discriminate|].
    apply elem_of_cons in H as [H|H]; [discriminate|]. by apply elem_of_nil in H.
  - discriminate.
  - discriminate.
  - done.
Qed.

(** An element that opens an index signature does not open a
    parenthesis. *)
Lemma wrap_condition (elem : gostring) :
  HasPrefix elem (go "{ [key:") && negb (HasPrefix elem (go "("))
  = HasPrefix elem (go "{ [key:").
Proof.
  destruct (HasPrefix elem (go "{ [key:")) eqn:H; [|done].
  apply HasPrefix_head in H as [t' ->]. done.
Qed.

End DispatchFacts.

(** ** Plain names *)

Module PlainFacts.
Import Parser GuardFacts DispatchFacts.

Lemma no_bracket_no_generic (s : gostring) :
  forallb (fun r => negb (bool_decide (r ∈ go "*[{"))) s = true ->
  genericTypePattern s = false.
Proof.
  induction s as [|c s IH]; [done|]. intros H.
  apply andb_true_iff in H as [_ H]. cbn [genericTypePattern].
  destruct s as [|d s']; [done|]. rewrite (IH H).
  apply andb_true_iff in H as [Hd _].
  destruct (d =? 91)%N eqn:E.
  - apply N.eqb_eq in E. subst d. discriminate.
  - by rewrite andb_false_r.
Qed.

Lemma sigil_prefix_not_plain (s p : gostring) :
  forallb (fun r => negb (bool_decide (r ∈ go "*[{"))) s = true ->
  forallb (fun r => negb (bool_decide (r ∈ go "*[{"))) p = false ->
  HasPrefix s p = false.
Proof.
  intros Hs Hp. destruct (HasPrefix s p) eqn:E; [|done].
  apply HasPrefix_app in E. rewrite E, forallb_app in Hs.
  apply andb_true_iff in Hs as [Hs _]. congruence.
Qed.

(** What the mapper sees of a plain name: no special literal, no prefix
    rule, no generic shape. *)
Lemma plain_name_dispatch (s : gostring) :
  is_plain_name s = true ->
  s <> [] /\ TrimSpace s = s /\ checkSpecialCases s = []
  /\ HasPrefix s (go "*") = false /\ HasPrefix s (go "[]") = false
  /\ HasPrefix s (go "map[") = false /\ HasPrefix s (go "struct{") = false
  /\ genericTypePattern s = false.
Proof.
  unfold is_plain_name. intros H.
  apply andb_true_iff in H as [H Hall].
  apply andb_true_iff in H as [H Hfunc].
  apply andb_true_iff in H as [Hne Htrim].
  apply negb_true_iff, eqs_false in Hne.
  apply negb_true_iff in Hfunc. apply eqs_true in Htrim.
  assert (Hlit : forall l : gostring,
            forallb (fun r => negb (bool_decide (r ∈ go "*[{"))) l = false ->
            s <> l).
  { intros l Hl ->. congruence. }
  repeat split; try done;
    try (apply sigil_prefix_not_plain; [exact Hall|reflexivity]).
  - unfold checkSpecialCases. rewrite Hfunc.
    rewrite (proj2 (eqs_false s (go "[]byte")) (Hlit (go "[]byte") eq_refl)).
    rewrite (proj2 (eqs_false s (go "struct{}")) (Hlit (go "struct{}") eq_refl)).
    rewrite bool_decide_eq_false_2; [done|].
    intros Hin. apply elem_of_cons in Hin as [Hin|Hin];
      [by apply (Hlit (go "*time.Time") eq_refl)|].
    apply elem_of_cons in Hin as [Hin|Hin];
      [by apply (Hlit (go "*url.URL") eq_refl)|].
    by apply elem_of_nil in Hin.
  - by apply no_bracket_no_generic.
Qed.

Section PlainAlias.
Variable aliasMap : gmap gostring gostring.
Variable typeParams : list gostring.
Variable structMap : gmap gostring StructInfo.
Variable typeParamMapping : gmap gostring gostring.

(** A plain alias name whose value is the name itself, or maps to [any],
    maps to [any]. *)
Lemma plain_alias_any (rec : gostring -> M gostring) (n : nat)
    (t base : gostring) (v v1 : visited_map) :
  is_plain_name t = true ->
  typeParamMapping !! t = None -> t ∉ typeParams ->
  aliasMap !! t = Some base ->
  (base = t /\ v1 = v) \/ (base <> t /\ rec base v = Some (go "any", v1)) ->
  GoTypeToTSType_body aliasMap typeParams structMap typeParamMapping
    rec n t v = Some (go "any", v1).
Proof.
  intros Hplain Hm Htp Ha Hcase.
  destruct (plain_name_dispatch t Hplain)
    as (Hne & _ & Hsp & H1 & H2 & H3 & H4 & H5).
  unfold GoTypeToTSType_body. rewrite Hm.
  rewrite (proj2 (eqs_false _ _) Hne), Hsp.
  change (negb (eqs [] [])) with false. cbn match.
  rewrite (bool_decide_eq_false_2 _ Htp), H1, H2, H3, H4, H5.
  unfold checkAliasTypes. rewrite Ha. unfold bind.
  destruct Hcase as [[-> ->]|[Hb E]].
  - by rewrite (proj2 (eqs_true t t) eq_refl).
  - by rewrite (proj2 (eqs_false _ _) Hb), E.
Qed.

Local Abbreviation mapType :=
  (GoTypeToTSType aliasMap typeParams structMap typeParamMapping).

(** A plain name on an alias cycle of length one or two maps to [any]. *)
Lemma alias_cycle_any (A B : gostring) (v : visited_map) (n : nat) :
  is_plain_name A = true -> is_plain_name B = true ->
  typeParamMapping !! A = None -> typeParamMapping !! B = None ->
  A ∉ typeParams -> B ∉ typeParams ->
  aliasMap !! A = Some B -> aliasMap !! B = Some A ->
  exists v', mapType (S (S (S n))) A v = Some (go "any", v').
Proof.
  intros PA PB MA MB TA TB AB BA.
  destruct (plain_name_dispatch A PA) as (_ & HtA & _).
  destruct (plain_name_dispatch B PB) as (_ & HtB & _).
  cbn [GoTypeToTSType]. unfold GoTypeToTSType_step at 1. rewrite HtA.
  destruct (vget v A) eqn:VA; [eauto|].
  destruct (decide (B = A)) as [->|Hne].
  { erewrite plain_alias_any; eauto. }
  unfold GoTypeToTSType_step at 2.
  destruct (vget (<[A := true]> v) B) eqn:VB.
  { erewrite plain_alias_any; [eauto|done..|].
    right. split; [done|]. unfold GoTypeToTSType_step. by rewrite HtB, VB. }
  erewrite plain_alias_any; [eauto|done..|].
  right. split; [done|]. unfold GoTypeToTSType_step at 1. rewrite HtB, VB.
  erewrite plain_alias_any; [done|done..|].
  right. split; [done|]. unfold GoTypeToTSType_step. rewrite HtA.
  rewrite vget_insert. case_decide; [done|].
  rewrite vget_insert. by case_decide.
Qed.
End PlainAlias.

End PlainFacts.

(** ** The splitter and the specification's wording *)

Module SplitSpecFacts.
Import Parser.

Lemma HasPrefix_char (x c : rune) (s : gostring) :
  HasPrefix (x :: s) [c] = bool_decide (c = x).
Proof. simpl. by rewrite andb_true_r. Qed.

Lemma Index_absent (s : gostring) (c : rune) :
  c ∉ s -> Index s [c] = (-1)%Z.
Proof.
  induction s as [|x s IH]; intros H; [done|].
  apply not_elem_of_cons in H as [Hx Hs]. cbn [Index].
  rewrite HasPrefix_char, (bool_decide_eq_false_2 _ Hx), (IH Hs). done.
Qed.

Lemma Index_app_char (a b : gostring) (c : rune) :
  c ∉ a -> Index (a ++ c :: b) [c] = Z.of_nat (length a).
Proof.
  induction a as [|x a IH]; intros H.
  - cbn [app Index]. by rewrite HasPrefix_char, bool_decide_eq_true_2.
  - apply not_elem_of_cons in H as [Hx Ha].
    change ((x :: a) ++ c :: b) with (x :: (a ++ c :: b)). cbn [Index].
    rewrite HasPrefix_char, (bool_decide_eq_false_2 _ Hx), (IH Ha).
    destruct (Z.of_nat (length a) <? 0)%Z eqn:E; [lia|].
    cbn [length]. lia.
Qed.

Lemma LastIndex_absent (s : gostring) (c : rune) :
  c ∉ s -> LastIndex s [c] = (-1)%Z.
Proof.
  induction s as [|x s IH]; intros H; [done|].
  apply not_elem_of_cons in H as [Hx Hs]. cbn [LastIndex].
  rewrite (IH Hs), HasPrefix_char, (bool_decide_eq_false_2 _ Hx). done.
Qed.

Lemma LastIndex_app_char (a b : gostring) (c : rune) :
  c ∉ b -> LastIndex (a ++ c :: b) [c] = Z.of_nat (length a).
Proof.
  intros Hb. induction a as [|x a IH].
  - cbn [app LastIndex]. rewrite (LastIndex_absent _ _ Hb).
    by rewrite HasPrefix_char, bool_decide_eq_true_2.
  - change ((x :: a) ++ c :: b) with (x :: (a ++ c :: b)). cbn [LastIndex].
    rewrite IH. destruct (0 <=? Z.of_nat (length a))%Z eqn:E; [|lia].
    cbn [length]. lia.
Qed.

Lemma LastIndex_lt (s : gostring) (c : rune) :
  (LastIndex s [c] < Z.of_nat (length s))%Z
  \/ (LastIndex s [c] = (-1)%Z).
Proof.
  induction s as [|x s IH]; [by right|]. cbn [LastIndex].
  destruct (0 <=? LastIndex s [c])%Z eqn:E.
  - left. cbn [length]. destruct IH; lia.
  - rewrite HasPrefix_char. destruct (bool_decide (c = x));
      [left; cbn [length]; lia|by right].
Qed.

Lemma LastIndex_app_absent (a b : gostring) (c : rune) :
  c ∉ b -> LastIndex (a ++ b) [c] = LastIndex a [c].
Proof.
  intros Hb. induction a as [|x a IH].
  - cbn [app]. by rewrite (LastIndex_absent _ _ Hb).
  - change ((x :: a) ++ b) with (x :: (a ++ b)). cbn [LastIndex].
    by rewrite IH, !HasPrefix_char.
Qed.

Lemma top_level_split_cons (s : gostring) (depth : Z) :
  exists w ws, top_level_split s depth = w :: ws.
Proof.
  destruct s as [|r rest]; cbn [top_level_split]; [eauto|].
  destruct (_ && _)%bool; [eauto|].
  destruct (top_level_split rest _); eauto.
Qed.

Lemma trimmed_parts_cons (a : gostring) (l : list gostring) :
  trimmed_parts (a :: l) = trimmed_parts [a] ++ trimmed_parts l.
Proof.
  unfold trimmed_parts. rewrite !fmap_cons, fmap_nil.
  rewrite !filter_cons, filter_nil. by case_decide.
Qed.

Lemma flush_trimmed (parts : list gostring) (buf : gostring) :
  flush parts buf = parts ++ trimmed_parts [buf].
Proof.
  unfold flush, trimmed_parts, eqs. cbn [fmap list_fmap].
  rewrite filter_cons, filter_nil.
  destruct (decide (TrimSpace buf = [])) as [E|E].
  - rewrite bool_decide_eq_true_2 by done.
    rewrite decide_False by (intros H; by apply H). by rewrite app_nil_r.
  - rewrite bool_decide_eq_false_2 by done. by rewrite decide_True.
Qed.

(** The loop with its buffer computes the cut at the top-level commas:
    after the final [flush], the parts are those collected so far, then the
    trimmed, non-empty pieces of the buffer followed by the rest of the
    text. *)
Lemma split_loop_spec (s : gostring) :
  forall parts buf depth,
    flush (split_loop s parts buf depth).1 (split_loop s parts buf depth).2
    = parts ++ trimmed_parts
                 (match top_level_split s depth with
                  | w :: ws => (buf ++ w) :: ws
                  | [] => [buf]
                  end).
Proof.
  induction s as [|r rest IH]; intros parts buf depth.
  - cbn [split_loop top_level_split fst snd]. rewrite app_nil_r.
    apply flush_trimmed.
  - cbn [split_loop top_level_split].
    destruct (r =? 44)%N eqn:Ec; cbn [andb].
    + destruct (depth =? 0)%Z eqn:Ed.
      * rewrite IH, flush_trimmed, app_nil_r.
        destruct (top_level_split_cons rest depth) as (w & ws & ->).
        cbn [app]. rewrite (trimmed_parts_cons buf (w :: ws)).
        by rewrite <- app_assoc.
      * apply N.eqb_eq in Ec. subst r.
        change (44 =? 91)%N with false. change (44 =? 93)%N with false.
        cbn match. rewrite IH.
        destruct (top_level_split_cons rest depth) as (w & ws & ->).
        by rewrite <- app_assoc.
    + cbv zeta.
      destruct (r =? 91)%N; [|destruct (r =? 93)%N]; rewrite IH;
        match goal with
        | |- context [top_level_split rest ?d] =>
            destruct (top_level_split_cons rest d) as (w & ws & ->)
        end; by rewrite <- app_assoc.
Qed.

Lemma SplitGenericType_not_generic (g : gostring) :
  ((Index g (go "[") <? 0) || (LastIndex g (go "]") <=? Index g (go "[")))%Z
    = true ->
  SplitGenericType g = (g, []).
Proof. intros H. unfold SplitGenericType. by rewrite H. Qed.

End SplitSpecFacts.

(** ** Generic instantiations *)

Module GenericFacts.
Import Parser GuardFacts DispatchFacts.

Lemma generic_not_special (t : gostring) :
  genericTypePattern t = true ->
  HasPrefix t (go "*") = false -> HasPrefix t (go "[]") = false ->
  HasPrefix t (go "struct{") = false ->
  t <> [] /\ checkSpecialCases t = [].
Proof.
  intros Hg H1 H2 H3. split; [by intros ->|].
  unfold checkSpecialCases, eqs.
  rewrite !bool_decide_eq_false_2; [done| | | |].
  - intros H. apply elem_of_cons in H as [->|H]; [discriminate|].
    apply elem_of_cons in H as [->|H]; [discriminate|].
    by apply elem_of_nil in H.
  - intros ->. discriminate.
  - intros ->. discriminate.
  - intros ->. discriminate.
Qed.

Section Generic.
Variable aliasMap : gmap gostring gostring.
Variable rec : gostring -> M gostring.
Hypothesis Hrec : forall g, preserves (rec g).

(** The parameter loop maps each parameter in turn, from a map that reads
    like the one the loop started with. *)
Lemma map_params_spec (params : list gostring) :
  forall acc v ts v',
    map_params rec params acc v = Some (ts, v') ->
    exists rs,
      ts = acc ++ rs
      /\ Forall2 (fun p r => exists va vb,
                    frame v va /\ rec p va = Some (r, vb)) params rs
      /\ frame v v'.
Proof.
  induction params as [|p ps IH]; intros acc v ts v' H; cbn [map_params] in H.
  - injection H as <- <-. exists []. rewrite app_nil_r.
    repeat split; [constructor|apply frame_refl].
  - unfold bind in H. destruct (rec p v) as [[r v1]|] eqn:E; [|discriminate].
    pose proof (Hrec _ _ _ _ E) as Hf.
    destruct (IH _ _ _ _ H) as (rs & -> & Hall & Hf').
    exists (r :: rs). rewrite <- app_assoc. split; [done|]. split.
    + constructor.
      * exists v, v1. split; [apply frame_refl|done].
      * eapply Forall2_impl; [exact Hall|].
        intros p' r' (va & vb & Hva & Hr). exists va, vb.
        split; [by eapply frame_trans|done].
    + by eapply frame_trans.
Qed.

Lemma CheckGenericPatterns_spec (t : gostring) (v : visited_map) r v' :
  CheckGenericPatterns aliasMap rec t v = Some (r, v') ->
  exists tsParams base',
    Forall2 (fun p r => exists va vb,
               frame v va /\ rec p va = Some (r, vb))
      (SplitGenericType t).2 tsParams
    /\ match aliasMap !! (SplitGenericType t).1 with
       | Some baseAlias =>
           if eqs baseAlias (SplitGenericType t).1
           then base' = (SplitGenericType t).1
           else exists va vb,
                  frame v va /\ rec baseAlias va = Some (base', vb)
       | None => base' = (SplitGenericType t).1
       end
    /\ r = base' ++ go "<" ++ Join tsParams (go ", ") ++ go ">".
Proof.
  unfold CheckGenericPatterns.
  destruct (SplitGenericType t) as [base params]. cbn [fst snd].
  intros H. unfold bind at 1 in H.
  destruct (map_params rec params [] v) as [[ts v1]|] eqn:E; [|discriminate].
  destruct (map_params_spec _ _ _ _ _ E) as (rs & -> & Hall & Hf).
  cbn [app] in *. unfold bind in H.
  destruct (aliasMap !! base) as [baseAlias|].
  - destruct (eqs baseAlias base); cbn [negb] in H.
    + injection H as <- _. by exists rs, base.
    + destruct (rec baseAlias v1) as [[b v2]|] eqn:Eb; [|discriminate].
      injection H as <- _. exists rs, b. split; [done|]. split; [|done].
      by exists v1, v2.
  - injection H as <- _. by exists rs, base.
Qed.
End Generic.

End GenericFacts.

(** ** Map types *)

Module MapFacts.
Import Parser GuardFacts DispatchFacts.

Section MapKey.
Variable aliasMap : gmap gostring gostring.

(** The key loop walks the alias table and stops on a key without alias,
    on a key aliased to itself, or on a key it has already seen. *)
Lemma resolve_key_walk (n : nat) :
  forall (vk : gmap gostring bool) (k kr : gostring),
    (forall x, vget vk x = true -> tc (alias_step aliasMap) x k) ->
    resolve_key aliasMap n vk k = Some kr ->
    rtc (alias_step aliasMap) k kr
    /\ (aliasMap !! kr = None \/ aliasMap !! kr = Some kr
        \/ tc (alias_step aliasMap) kr kr).
Proof.
  induction n as [|n IH]; intros vk k kr Hinv H; [discriminate|].
  cbn [resolve_key] in H. destruct (vget vk k) eqn:Hk.
  { injection H as <-. split; [apply rtc_refl|]. right. right. by apply Hinv. }
  destruct (aliasMap !! k) as [base|] eqn:Ha.
  - destruct (eqs base k) eqn:Eb; cbn [negb] in H.
    + injection H as <-. apply eqs_true in Eb. subst base.
      split; [apply rtc_refl|]. by right; left.
    + apply eqs_false in Eb.
      assert (Hstep : alias_step aliasMap k base) by done.
      destruct (IH (<[k := true]> vk) base kr) as [Hr Hend]; [|done|].
      * intros x Hx. rewrite vget_insert in Hx. case_decide as Hd.
        -- subst x. by apply tc_once.
        -- eapply tc_r; [by apply Hinv|done].
      * split; [by eapply rtc_l|done].
  - injection H as <-. split; [apply rtc_refl|]. by left.
Qed.

Lemma is_index_key_coerce (k : gostring) :
  negb (eqs k (go "string")) && negb (eqs k (go "number"))
  && negb (eqs k (go "symbol"))
  = negb (is_index_key k).
Proof.
  unfold is_index_key.
  by destruct (eqs k (go "string")), (eqs k (go "number")),
              (eqs k (go "symbol")).
Qed.

Lemma is_index_key_coerced (k : gostring) :
  is_index_key (if is_index_key k then k else go "string") = true.
Proof. by destruct (is_index_key k) eqn:E. Qed.

Variable rec : gostring -> M gostring.
Variable n : nat.

(** What [parseMapType] returns when the text has a closing bracket. *)
Lemma parseMapType_spec (t p0 p1 : gostring) (v : visited_map) r v' :
  SplitN2 (drop 4 t) (go "]") = Some (p0, p1) ->
  parseMapType aliasMap rec n t v = Some (r, v') ->
  exists keyTS valTS,
    r = go "{ [key: " ++ keyTS ++ go "]: " ++ valTS ++ go " }"
    /\ is_index_key keyTS = true
    /\ (HasPrefix (TrimSpace p0) (go "struct{") = true ->
        keyTS = go "string")
    /\ (HasPrefix (TrimSpace p0) (go "struct{") = false ->
        TrimSpace p0 ∈ int_key_names -> keyTS = go "number")
    /\ (HasPrefix (TrimSpace p0) (go "struct{") = false ->
        TrimSpace p0 ∉ int_key_names ->
        exists keyResolved k vk,
          resolve_key aliasMap n ∅ (TrimSpace p0) = Some keyResolved
          /\ rec keyResolved v = Some (k, vk)
          /\ keyTS = if is_index_key k then k else go "string").
Proof.
  intros Hs H. unfold parseMapType in H.
  change (length (go "map[")) with 4 in H. rewrite Hs in H.
  destruct (HasPrefix (TrimSpace p0) (go "struct{")) eqn:Hst.
  { unfold bind, ret in H.
    destruct (rec (TrimSpace p1) v) as [[valTS v1]|]; [|discriminate].
    injection H as <- _. eexists (go "string"), _.
    split; [done|]. by repeat split. }
  destruct (bool_decide (TrimSpace p0 ∈ int_key_names)) eqn:Hint.
  { apply bool_decide_eq_true in Hint. unfold bind, ret in H.
    destruct (rec (TrimSpace p1) v) as [[valTS v1]|]; [|discriminate].
    injection H as <- _. eexists (go "number"), _.
    split; [done|]. by repeat split. }
  apply bool_decide_eq_false in Hint.
  destruct (resolve_key aliasMap n ∅ (TrimSpace p0)) as [kr|] eqn:Ek;
    [|discriminate].
  unfold bind at 1 2 in H.
  destruct (rec kr v) as [[k vk]|] eqn:Er; [|discriminate].
  rewrite is_index_key_coerce in H.
  destruct (is_index_key k) eqn:Eik;
    [change (negb true) with false in H|change (negb false) with true in H];
    cbv iota in H; unfold bind, ret in H;
    (destruct (rec (TrimSpace p1) vk) as [[valTS v1]|]; [|discriminate]);
    apply (inj Some) in H; apply (f_equal fst) in H; cbn [fst] in H;
    subst r.
  - eexists k, _. split; [reflexivity|]. repeat split; try done.
    intros _ _. exists kr, k, vk. by rewrite Eik.
  - eexists (go "string"), _. split; [reflexivity|]. repeat split; try done.
    intros _ _. exists kr, k, vk. by rewrite Eik.
Qed.
End MapKey.

End MapFacts.

(** * The claims *)

Module Claims.
Import Parser GuardFacts FuelFacts TerminationFacts SplitFacts TotalFacts
  ResultFacts DispatchFacts PlainFacts SplitSpecFacts GenericFacts MapFacts.

Section Mapper.
Variable aliasMap : gmap gostring gostring.
Variable typeParams : list gostring.
Variable structMap : gmap gostring StructInfo.
Variable typeParamMapping : gmap gostring gostring.

Local Abbreviation mapType :=
(GoTypeToTSType aliasMap typeParams structMap typeParamMapping).

(** With enough fuel the answer is the one answer there is. *)
Lemma GoTypeToTSType_answer (g : gostring) (v : visited_map) :
exists r v',
  forall fuel, fuel_bound aliasMap g v <= fuel ->
    mapType fuel g v = Some (r, v').
Proof.
destruct (GoTypeToTSType_total aliasMap typeParams structMap
            typeParamMapping _ g v (Nat.le_refl _)) as (r & v' & E).
exists r, v'. intros fuel Hle.
by apply (GoTypeToTSType_mono _ _ _ _ _ _ g Hle).
Qed.

(** C1, as amended: for every type-expression string, every alias table
  (self-referential and mutually-referential chains included), every
  visited map, [GoTypeToTSType] terminates: [fuel_bound] units of fuel,
  or more, give its one answer.  The returned text is non-empty whenever
  the trimmed expression is non-empty and the substitution map does not
  send it to the empty text. *)
Theorem GoTypeToTSType_terminates (g : gostring) (v : visited_map) :
exists r v',
  (forall fuel, fuel_bound aliasMap g v <= fuel ->
     mapType fuel g v = Some (r, v'))
  /\ (TrimSpace g <> [] ->
      typeParamMapping !! TrimSpace g <> Some [] -> r <> []).
Proof.
destruct (GoTypeToTSType_answer g v) as (r & v' & H).
exists r, v'. split; [exact H|]. intros Ht Hm.
specialize (H _ (Nat.le_refl _)).
destruct (fuel_bound aliasMap g v) as [|n]; [discriminate|].
cbn [GoTypeToTSType] in H.
eapply GoTypeToTSType_step_nonempty; eauto.
Qed.

(** C8: every call leaves the visited set as it found it.  If the trimmed
  expression is already marked, the call returns [any] and the map is
  untouched; otherwise the expression is marked on entry, the body runs
  on the marked map, and the mark is deleted from whatever map the body
  leaves, on every branch.  In both cases [visited[k]] reads the same
  for every [k] after the call as before it, no key is added, and a map
  whose entries are all [true] is restored exactly. *)
Theorem GoTypeToTSType_restores_visited (g : gostring) (v : visited_map) :
exists r v',
  (forall fuel, fuel_bound aliasMap g v <= fuel ->
     mapType fuel g v = Some (r, v'))
  /\ (vget v (TrimSpace g) = true -> r = go "any" /\ v' = v)
  /\ (vget v (TrimSpace g) = false ->
      forall n, fuel_bound aliasMap g v <= S n ->
        exists v1,
          GoTypeToTSType_body aliasMap typeParams structMap
            typeParamMapping (mapType n) n (TrimSpace g)
            (<[TrimSpace g := true]> v) = Some (r, v1)
          /\ v' = delete (TrimSpace g) v1)
  /\ (forall k, vget v' k = vget v k)
  /\ v' ⊆ v
  /\ ((forall k b, v !! k = Some b -> b = true) -> v' = v).
Proof.
destruct (GoTypeToTSType_answer g v) as (r & v' & H).
exists r, v'. split; [exact H|].
pose proof (H _ (Nat.le_refl _)) as H0.
pose proof (GoTypeToTSType_preserves _ _ _ _ _ _ _ _ _ H0) as Hf.
split; [|split; [|split; [|split]]].
- intros Hv. destruct (fuel_bound aliasMap g v) as [|n]; [discriminate|].
  cbn [GoTypeToTSType] in H0. unfold GoTypeToTSType_step in H0.
  rewrite Hv in H0. by injection H0 as <- <-.
- intros Hv n Hn. specialize (H _ Hn).
  cbn [GoTypeToTSType] in H. unfold GoTypeToTSType_step in H.
  rewrite Hv in H.
  destruct (GoTypeToTSType_body _ _ _ _ _ _ _ _) as [[r1 v1]|];
    [|discriminate].
  injection H as <- <-. by exists v1.
- intros k. symmetry. apply Hf.
- apply Hf.
- intros Hall. by apply frame_all_true.
Qed.

(** The answer of a call, read off one unfolding of its body. *)
Lemma GoTypeToTSType_unfold (g : gostring) (v : visited_map) r v' n r1 v1 :
(forall fuel, fuel_bound aliasMap g v <= fuel ->
 mapType fuel g v = Some (r, v')) ->
vget v (TrimSpace g) = false ->
GoTypeToTSType_body aliasMap typeParams structMap typeParamMapping
(mapType n) n (TrimSpace g) (<[TrimSpace g := true]> v) = Some (r1, v1) ->
r = r1 /\ v' = delete (TrimSpace g) v1.
Proof.
intros H Hv Hb. specialize (H _ (Nat.le_refl _)).
assert (H1 : mapType (S n) g v = Some (r1, delete (TrimSpace g) v1)).
{ cbn [GoTypeToTSType]. unfold GoTypeToTSType_step. by rewrite Hv, Hb. }
by injection (GoTypeToTSType_deterministic _ _ _ _ _ _ _ _ _ _ H H1).
Qed.


(** C7: when the trimmed expression starts with [[]], is not the literal
  [[]byte], and no earlier rule takes it, the mapped element is put in
  parentheses exactly when it begins with [{ [key:] (such a text never
  begins with a parenthesis), and [[]] is appended.  In particular, with
  no alias, substitution or generic parameter in play,
  [[]map[string]int] maps to [({ [key: string]: number })[]], while
  [[]int] maps to [number[]] without parentheses, at every fuel from 3
  on, and the visited map, empty before, is empty after. *)
Theorem slice_parenthesizes_index_signature (g : gostring) (v : visited_map) :
(HasPrefix (TrimSpace g) (go "[]") = true ->
 TrimSpace g <> go "[]byte" ->
 vget v (TrimSpace g) = false ->
 typeParamMapping !! TrimSpace g = None ->
 TrimSpace g ∉ typeParams ->
 exists elem v1,
 (forall fuel,
    fuel_bound aliasMap (drop 2 (TrimSpace g)) (<[TrimSpace g := true]> v)
      <= fuel ->
    mapType fuel (drop 2 (TrimSpace g)) (<[TrimSpace g := true]> v)
      = Some (elem, v1))
 /\ (forall fuel, fuel_bound aliasMap g v <= fuel ->
       mapType fuel g v
         = Some ((if HasPrefix elem (go "{ [key:")
                  then go "(" ++ elem ++ go ")" else elem) ++ go "[]",
                 delete (TrimSpace g) v1)))
/\ (forall fuel, 3 <= fuel ->
      GoTypeToTSType ∅ [] ∅ ∅ fuel (go "[]map[string]int") ∅
      = Some (go "({ [key: string]: number })[]", ∅)
      /\ GoTypeToTSType ∅ [] ∅ ∅ fuel (go "[]int") ∅
         = Some (go "number[]", ∅)).
Proof.
split; [|intros fuel Hf; split;
         refine (GoTypeToTSType_mono ∅ [] ∅ ∅ 3 fuel _ Hf _ _ _);
         vm_compute; reflexivity].
intros Hp Hb Hv Hm Htp.
destruct (GoTypeToTSType_answer (drop 2 (TrimSpace g))
          (<[TrimSpace g := true]> v)) as (elem & v1 & Hin).
destruct (GoTypeToTSType_answer g v) as (r & v' & Hout).
exists elem, v1. split; [exact Hin|].
destruct (GoTypeToTSType_unfold g v r v'
            (fuel_bound aliasMap (drop 2 (TrimSpace g))
               (<[TrimSpace g := true]> v))
          ((if HasPrefix elem (go "{ [key:")
            then go "(" ++ elem ++ go ")" else elem) ++ go "[]") v1 Hout Hv)
as [-> ->]; [|exact Hout].
destruct (slice_not_special _ Hp Hb) as [Hs Hstar].
unfold GoTypeToTSType_body. rewrite Hm.
rewrite (proj2 (eqs_false _ _) (HasPrefix_nonempty _ _ Hp ltac:(discriminate))).
rewrite Hs. change (negb (eqs [] [])) with false. cbn match.
rewrite (bool_decide_eq_false_2 _ Htp), Hstar, Hp.
unfold bind. rewrite (Hin _ (Nat.le_refl _)).
by rewrite wrap_condition.
Qed.

(** C2: a plain alias name whose alias value is the name itself ([B = A]
    below), or whose alias value is a second plain name that is aliased
    back to it, maps to [any], from any visited map.  The call leaves
    [visited] reading as before, so the same call made afterwards, on the
    map the first one left or on a fresh one, answers [any] again; from the
    empty map the call returns the empty map. *)
Theorem alias_cycle_maps_to_any (A B : gostring) (v : visited_map)
  (fuel : nat) :
is_plain_name A = true -> is_plain_name B = true ->
typeParamMapping !! A = None -> typeParamMapping !! B = None ->
A ∉ typeParams -> B ∉ typeParams ->
aliasMap !! A = Some B -> aliasMap !! B = Some A ->
3 <= fuel ->
(exists v',
   mapType fuel A v = Some (go "any", v')
   /\ (forall k, vget v' k = vget v k)
   /\ exists v'', mapType fuel A v' = Some (go "any", v''))
/\ mapType fuel A ∅ = Some (go "any", ∅).
Proof.
intros PA PB MA MB TA TB AB BA Hf.
destruct fuel as [|[|[|n]]]; [lia..|].
assert (L : forall v0, exists v',
          mapType (S (S (S n))) A v0 = Some (go "any", v')
          /\ frame v0 v').
{ intros v0.
  destruct (alias_cycle_any aliasMap typeParams structMap typeParamMapping
              A B v0 n) as [v' E]; try done.
  exists v'. split; [done|].
  eapply GoTypeToTSType_preserves, E. }
split.
- destruct (L v) as (v' & E & Hs & He). exists v'.
  split; [done|]. split; [done|].
  destruct (L v') as (v'' & E' & _). eauto.
- destruct (L ∅) as (v' & E & Hs & _). rewrite E.
  assert (v' = ∅) as ->; [|done].
  apply map_empty. intros k. destruct (v' !! k) eqn:Hk; [|done].
  eapply lookup_weaken in Hk; [|exact Hs]. by rewrite lookup_empty in Hk.
Qed.

(** C6: when the trimmed expression has the generic shape and no earlier
    rule takes it, its mapping is [Base<P1, ..., Pn>]: every parameter the
    splitter returns is mapped, in order, by the mapper itself; the base is
    the text before the first bracket, replaced by the mapping of its alias
    value when the alias table has an entry for it that differs from it;
    the mapped parameters are joined with [, ] between angle brackets.
    With an empty alias table [Result[User]] maps to [Result<User>]. *)
Theorem generic_instantiation_maps_parameters (g : gostring)
  (v : visited_map) :
genericTypePattern (TrimSpace g) = true ->
HasPrefix (TrimSpace g) (go "*") = false ->
HasPrefix (TrimSpace g) (go "[]") = false ->
HasPrefix (TrimSpace g) (go "map[") = false ->
HasPrefix (TrimSpace g) (go "struct{") = false ->
vget v (TrimSpace g) = false ->
typeParamMapping !! TrimSpace g = None ->
TrimSpace g ∉ typeParams ->
(exists tsParams base' v',
   (forall fuel, fuel_bound aliasMap g v <= fuel ->
      mapType fuel g v
        = Some (base' ++ go "<" ++ Join tsParams (go ", ") ++ go ">", v'))
   /\ Forall2 (fun p r => exists va vb,
                 (forall k, vget va k = vget (<[TrimSpace g := true]> v) k)
                 /\ forall fuel, fuel_bound aliasMap p va <= fuel ->
                      mapType fuel p va = Some (r, vb))
        (SplitGenericType (TrimSpace g)).2 tsParams
   /\ match aliasMap !! (SplitGenericType (TrimSpace g)).1 with
      | Some baseAlias =>
          if eqs baseAlias (SplitGenericType (TrimSpace g)).1
          then base' = (SplitGenericType (TrimSpace g)).1
          else exists va vb,
                 (forall k, vget va k = vget (<[TrimSpace g := true]> v) k)
                 /\ forall fuel, fuel_bound aliasMap baseAlias va <= fuel ->
                      mapType fuel baseAlias va = Some (base', vb)
      | None => base' = (SplitGenericType (TrimSpace g)).1
      end)
/\ GoTypeToTSType ∅ [] {[ go "User" := {| SName := go "User";
                                            STypeParams := [];
                                            SFields := [] |} ]} ∅
     3 (go "Result[User]") ∅ = Some (go "Result<User>", ∅).
Proof.
intros Hg H1 H2 H3 H4 Hv Hm Htp. split; [|by vm_compute].
destruct (GoTypeToTSType_answer g v) as (r & v' & Hout).
pose proof (Hout _ (Nat.le_refl _)) as H0.
destruct (fuel_bound aliasMap g v) as [|n] eqn:Eb; [discriminate|].
cbn [GoTypeToTSType] in H0. unfold GoTypeToTSType_step in H0.
rewrite Hv in H0.
destruct (GoTypeToTSType_body _ _ _ _ _ _ _ _) as [[r1 v1]|] eqn:E;
  [|discriminate].
injection H0 as <- <-.
destruct (generic_not_special _ Hg H1 H2 H4) as [Hne Hsp].
unfold GoTypeToTSType_body in E. rewrite Hm in E.
rewrite (proj2 (eqs_false _ _) Hne), Hsp in E.
change (negb (eqs [] [])) with false in E. cbn match in E.
rewrite (bool_decide_eq_false_2 _ Htp), H1, H2, H3, H4, Hg in E.
assert (Hpres : forall g', preserves (mapType n g')).
{ intros g'. apply GoTypeToTSType_preserves. }
assert (Hfix : forall p va r0 vb,
          frame (<[TrimSpace g := true]> v) va ->
          mapType n p va = Some (r0, vb) ->
          (forall k, vget va k = vget (<[TrimSpace g := true]> v) k)
          /\ forall fuel, fuel_bound aliasMap p va <= fuel ->
               mapType fuel p va = Some (r0, vb)).
{ intros p va r0 vb [_ Hf] Hr. split; [by intros k; rewrite Hf|].
  destruct (GoTypeToTSType_answer p va) as (r2 & v2 & Ha).
  intros fuel Hle. rewrite (Ha _ Hle). f_equal.
  eapply GoTypeToTSType_deterministic; [apply (Ha _ Hle)|exact Hr]. }
destruct (CheckGenericPatterns_spec aliasMap (mapType n) Hpres _ _ _ _ E)
  as (tsParams & base' & Hall & Hbase & ->).
exists tsParams, base', (delete (TrimSpace g) v1).
split; [exact Hout|]. split.
- eapply Forall2_impl; [exact Hall|].
  intros p r0 (va & vb & Hf & Hr). exists va, vb. by apply Hfix.
- destruct (aliasMap !! (SplitGenericType (TrimSpace g)).1) as [b|]; [|done].
  destruct (eqs b _); [done|].
  destruct Hbase as (va & vb & Hf & Hr). exists va, vb. by apply Hfix.
Qed.

(** C4: the key of a map type.  An expression that starts with [map[] and
    that no earlier rule takes goes to [parseMapType].  Without a closing
    bracket it maps to [any].  Otherwise the result is the index signature
    [{ [key: K]: V }], where [K] is [string] for a key text that starts
    with [struct{], [number] for the integer-family names, and for any
    other key the mapping of the key the key loop ends on, kept if it is
    [string], [number] or [symbol] and replaced by [string] if not; [K] is
    always one of the three.  The key loop starts from its own empty
    visited-keys map, whatever [visited] holds, walks the alias table from
    the key, and ends on a key with no alias, a key aliased to itself, or a
    key on a cycle; it always ends. *)
Theorem map_key_coercion (rec : gostring -> M gostring) (n : nat)
  (t : gostring) (v : visited_map) :
(HasPrefix t (go "map[") = true -> typeParamMapping !! t = None ->
 t ∉ typeParams ->
 GoTypeToTSType_body aliasMap typeParams structMap typeParamMapping rec n t
 = parseMapType aliasMap rec n t)
/\ (SplitN2 (drop 4 t) (go "]") = None ->
    parseMapType aliasMap rec n t v = Some (go "any", v))
/\ (forall p0 p1 r v',
      SplitN2 (drop 4 t) (go "]") = Some (p0, p1) ->
      parseMapType aliasMap rec n t v = Some (r, v') ->
      exists keyTS valTS,
        r = go "{ [key: " ++ keyTS ++ go "]: " ++ valTS ++ go " }"
        /\ is_index_key keyTS = true
        /\ (HasPrefix (TrimSpace p0) (go "struct{") = true ->
            keyTS = go "string")
        /\ (HasPrefix (TrimSpace p0) (go "struct{") = false ->
            TrimSpace p0 ∈ int_key_names -> keyTS = go "number")
        /\ (HasPrefix (TrimSpace p0) (go "struct{") = false ->
            TrimSpace p0 ∉ int_key_names ->
            exists keyResolved k vk,
              resolve_key aliasMap n ∅ (TrimSpace p0) = Some keyResolved
              /\ rec keyResolved v = Some (k, vk)
              /\ keyTS = if is_index_key k then k else go "string"))
/\ (forall k kr,
      resolve_key aliasMap n ∅ k = Some kr ->
      rtc (alias_step aliasMap) k kr
      /\ (aliasMap !! kr = None \/ aliasMap !! kr = Some kr
          \/ tc (alias_step aliasMap) kr kr))
/\ (size aliasMap < n -> forall k, is_Some (resolve_key aliasMap n ∅ k))
/\ GoTypeToTSType ∅ [] ∅ ∅ 4 (go "map[struct{X int}]string") ∅
   = Some (go "{ [key: string]: string }", ∅)
/\ GoTypeToTSType
     (<[ go "CustomIntAlias" := go "Flag" ]> {[ go "Flag" := go "bool" ]})
     [] ∅ ∅ 6 (go "map[CustomIntAlias]string") ∅
   = Some (go "{ [key: string]: string }", ∅)
/\ GoTypeToTSType ∅ [] ∅ ∅ 4 (go "map[string") ∅ = Some (go "any", ∅).
Proof.
split; [|split; [|split; [|split; [|split]]]].
- intros Hp Hm Htp. unfold GoTypeToTSType_body. rewrite Hm.
  destruct (HasPrefix_head _ _ _ Hp) as [t' Ht].
  assert (Ht' : t = 109%N :: t') by exact Ht. clear Ht. subst t.
  change (eqs (109%N :: t') []) with false. cbv iota.
  assert (Hsp : checkSpecialCases (109%N :: t') = []).
  { unfold checkSpecialCases, eqs.
    rewrite !bool_decide_eq_false_2; [done| | | |]; try discriminate.
    intros H. apply elem_of_cons in H as [H|H]; [discriminate|].
    apply elem_of_cons in H as [H|H]; [discriminate|].
    by apply elem_of_nil in H. }
  rewrite Hsp. change (negb (eqs [] [])) with false. cbv iota.
  rewrite (bool_decide_eq_false_2 _ Htp).
  change (HasPrefix (109%N :: t') (go "*")) with false.
  change (HasPrefix (109%N :: t') (go "[]")) with false.
  cbv iota. by rewrite Hp.
- intros Hs. unfold parseMapType. change (length (go "map[")) with 4.
  by rewrite Hs.
- intros p0 p1 r v' Hs H. by eapply parseMapType_spec.
- intros k kr H. eapply resolve_key_walk; [|exact H].
  intros x Hx. by rewrite vget_empty in Hx.
- intros Hn k. destruct (resolve_key_total aliasMap n ∅ k) as [r E].
  + pose proof (unseen_keys_size aliasMap ∅). lia.
  + by rewrite E.
- split; [|split]; vm_compute; reflexivity.
Qed.

(** C10: the pointer rule comes before the basic-type table.  For an
  expression that starts with [*] the body is the substitution map, the
  special literals, the enclosing parameters and the pointer rule, and
  nothing else: [checkBasicTypes] is not consulted, so its entries
  [*interface{}] and [*interface {}] are never used.  When no table
  shadows the four names and none is being resolved, [*interface{}] and
  [*interface {}] map to [any | null]. *)
Theorem pointer_interface_is_nullable_any (v : visited_map) :
Forall (fun x => typeParamMapping !! x = None /\ (x ∉ typeParams)
               /\ aliasMap !! x = None /\ vget v x = false)
[go "*interface{}"; go "interface{}"; go "*interface {}"; go "interface {}"] ->
(forall rec n t, HasPrefix t (go "*") = true ->
 GoTypeToTSType_body aliasMap typeParams structMap typeParamMapping rec n t
 = match typeParamMapping !! t with
   | Some mapped => ret mapped
   | None =>
       if negb (eqs (checkSpecialCases t) []) then ret (checkSpecialCases t)
       else if bool_decide (t ∈ typeParams) then ret t
       else inner <- rec (drop 1 t) ;; ret (inner ++ go " | null")
   end)
/\ (forall fuel, 2 <= fuel ->
    (fst <$> mapType fuel (go "*interface{}") v) = Some (go "any | null")
    /\ (fst <$> mapType fuel (go "*interface {}") v) = Some (go "any | null"))
/\ checkBasicTypes (go "*interface{}") = go "any"
/\ checkBasicTypes (go "*interface {}") = go "any"
/\ go "any | null" <> go "any".
Proof.
intros Hall. split; [|split; [|by repeat split]].
- intros rec n t Hp. unfold GoTypeToTSType_body.
destruct (typeParamMapping !! t); [done|].
rewrite (proj2 (eqs_false _ _)
           (HasPrefix_nonempty _ _ Hp ltac:(discriminate))).
by rewrite Hp.
- apply Forall_cons in Hall as [(M1 & P1 & A1 & V1) Hall].
apply Forall_cons in Hall as [(M2 & P2 & A2 & V2) Hall].
apply Forall_cons in Hall as [(M3 & P3 & A3 & V3) Hall].
apply Forall_cons in Hall as [(M4 & P4 & A4 & V4) _].
intros fuel Hf. destruct fuel as [|[|n]]; [lia|lia|].
assert (Hins : forall a b : gostring, a <> b -> vget v b = false ->
               vget (<[a := true]> v) b = false).
{ intros a b Hab Hb. rewrite vget_insert. by case_decide. }
split.
+ cbn [GoTypeToTSType]. unfold GoTypeToTSType_step.
  change (TrimSpace (go "*interface{}")) with (go "*interface{}").
  rewrite V1. unfold GoTypeToTSType_body at 1. rewrite M1.
  change (eqs (go "*interface{}") []) with false.
  change (checkSpecialCases (go "*interface{}")) with (@nil N).
  change (negb (eqs [] [])) with false. cbn match.
  rewrite (bool_decide_eq_false_2 _ P1).
  change (HasPrefix (go "*interface{}") (go "*")) with true.
  unfold bind at 1.
  change (drop 1 (go "*interface{}")) with (go "interface{}").
  change (TrimSpace (go "interface{}")) with (go "interface{}").
  rewrite (Hins (go "*interface{}") (go "interface{}") ltac:(discriminate) V2).
  unfold GoTypeToTSType_body. rewrite M2.
  change (eqs (go "interface{}") []) with false.
  change (checkSpecialCases (go "interface{}")) with (@nil N).
  change (negb (eqs [] [])) with false. cbn match.
  rewrite (bool_decide_eq_false_2 _ P2).
  change (HasPrefix (go "interface{}") (go "*")) with false.
  change (HasPrefix (go "interface{}") (go "[]")) with false.
  change (HasPrefix (go "interface{}") (go "map[")) with false.
  change (HasPrefix (go "interface{}") (go "struct{")) with false.
  change (genericTypePattern (go "interface{}")) with false.
  unfold checkAliasTypes. rewrite A2. done.
+ cbn [GoTypeToTSType]. unfold GoTypeToTSType_step.
  change (TrimSpace (go "*interface {}")) with (go "*interface {}").
  rewrite V3. unfold GoTypeToTSType_body at 1. rewrite M3.
  change (eqs (go "*interface {}") []) with false.
  change (checkSpecialCases (go "*interface {}")) with (@nil N).
  change (negb (eqs [] [])) with false. cbn match.
  rewrite (bool_decide_eq_false_2 _ P3).
  change (HasPrefix (go "*interface {}") (go "*")) with true.
  unfold bind at 1.
  change (drop 1 (go "*interface {}")) with (go "interface {}").
  change (TrimSpace (go "interface {}")) with (go "interface {}").
  rewrite (Hins (go "*interface {}") (go "interface {}") ltac:(discriminate) V4).
  unfold GoTypeToTSType_body. rewrite M4.
  change (eqs (go "interface {}") []) with false.
  change (checkSpecialCases (go "interface {}")) with (@nil N).
  change (negb (eqs [] [])) with false. cbn match.
  rewrite (bool_decide_eq_false_2 _ P4).
  change (HasPrefix (go "interface {}") (go "*")) with false.
  change (HasPrefix (go "interface {}") (go "[]")) with false.
  change (HasPrefix (go "interface {}") (go "map[")) with false.
  change (HasPrefix (go "interface {}") (go "struct{")) with false.
  change (genericTypePattern (go "interface {}")) with false.
  unfold checkAliasTypes. rewrite A4. done.
Qed.

End Mapper.



(** C7, at work: [[]map[string]int] maps to
    [({ [key: string]: number })[]]. *)
Lemma slice_parenthesizes_index_signature_witness :
  (exists elem v1,
    (forall fuel,
       fuel_bound ∅ (drop 2 (TrimSpace (go "[]map[string]int")))
         (<[TrimSpace (go "[]map[string]int") := true]> ∅) <= fuel ->
       GoTypeToTSType ∅ [] ∅ ∅ fuel (drop 2 (TrimSpace (go "[]map[string]int")))
         (<[TrimSpace (go "[]map[string]int") := true]> ∅) = Some (elem, v1))
    /\ (forall fuel, fuel_bound ∅ (go "[]map[string]int") ∅ <= fuel ->
          GoTypeToTSType ∅ [] ∅ ∅ fuel (go "[]map[string]int") ∅
            = Some ((if HasPrefix elem (go "{ [key:")
                     then go "(" ++ elem ++ go ")" else elem) ++ go "[]",
                    delete (TrimSpace (go "[]map[string]int")) v1)))
  /\ GoTypeToTSType ∅ [] ∅ ∅ 3 (go "[]map[string]int") ∅
     = Some (go "({ [key: string]: number })[]", ∅).
Proof.
  split.
  - apply (proj1 (slice_parenthesizes_index_signature ∅ [] ∅ ∅
                    (go "[]map[string]int") ∅)).
    + reflexivity.
    + discriminate.
    + reflexivity.
    + reflexivity.
    + apply not_elem_of_nil.
  - apply (proj2 (slice_parenthesizes_index_signature ∅ [] ∅ ∅
                    (go "[]map[string]int") ∅) 3).
    apply le_n.
Defined.

(** C10, at work in the empty environment. *)
Lemma pointer_interface_is_nullable_any_witness :
  (fst <$> GoTypeToTSType ∅ [] ∅ ∅ 2 (go "*interface{}") ∅)
    = Some (go "any | null")
  /\ (fst <$> GoTypeToTSType ∅ [] ∅ ∅ 2 (go "*interface {}") ∅)
     = Some (go "any | null").
Proof.
  refine (proj1 (proj2 (pointer_interface_is_nullable_any ∅ [] ∅ ∅ ∅ _))
            2 (Nat.le_refl 2)).
  repeat (apply Forall_cons; split;
          [repeat split; try reflexivity; apply not_elem_of_nil|]).
  apply Forall_nil_2.
Defined.

(** C2, at work: the self-alias [SelfRef = SelfRef] and the pair
    [AliasLoop1 = AliasLoop2], [AliasLoop2 = AliasLoop1]. *)
Lemma alias_cycle_maps_to_any_witness :
  GoTypeToTSType {[ go "SelfRef" := go "SelfRef" ]} [] ∅ ∅ 3
    (go "SelfRef") ∅ = Some (go "any", ∅)
  /\ GoTypeToTSType
       (<[ go "AliasLoop1" := go "AliasLoop2" ]>
          {[ go "AliasLoop2" := go "AliasLoop1" ]}) [] ∅ ∅ 3
       (go "AliasLoop1") ∅ = Some (go "any", ∅).
Proof.
  split.
  - refine (proj2 (alias_cycle_maps_to_any
                     {[ go "SelfRef" := go "SelfRef" ]} [] ∅ ∅
                     (go "SelfRef") (go "SelfRef") ∅ 3
                     _ _ _ _ _ _ _ _ _));
      try reflexivity; try apply not_elem_of_nil.
  - refine (proj2 (alias_cycle_maps_to_any
                     (<[ go "AliasLoop1" := go "AliasLoop2" ]>
                        {[ go "AliasLoop2" := go "AliasLoop1" ]}) [] ∅ ∅
                     (go "AliasLoop1") (go "AliasLoop2") ∅ 3
                     _ _ _ _ _ _ _ _ _));
      try reflexivity; try apply not_elem_of_nil.
Defined.

(** C5: [SplitGenericType] on [base[paramText]rest], where [base] holds no
    opening bracket and [rest] no closing one (so the brackets shown are
    the first [[] and the last []]), returns [base] and the parameter text
    cut at the commas of bracket depth 0, each piece trimmed and the empty
    pieces dropped; an empty parameter text gives the one parameter [""].
    A text without [[], or with no []] after its first [[], comes back
    unchanged with no parameters. *)
Theorem SplitGenericType_spec :
  (forall base paramText rest : gostring,
     91%N ∉ base -> 93%N ∉ rest ->
     SplitGenericType (base ++ go "[" ++ paramText ++ go "]" ++ rest)
     = (base,
        if eqs paramText [] then [[]]
        else trimmed_parts (top_level_split paramText 0%Z)))
  /\ (forall g : gostring, 91%N ∉ g -> SplitGenericType g = (g, []))
  /\ (forall base rest : gostring,
        91%N ∉ base -> 93%N ∉ rest ->
        SplitGenericType (base ++ go "[" ++ rest)
        = (base ++ go "[" ++ rest, []))
  /\ SplitGenericType (go "Base[A,B]") = (go "Base", [go "A"; go "B"])
  /\ SplitGenericType (go "Base[]") = (go "Base", [[]])
  /\ SplitGenericType (go "Broken[Param") = (go "Broken[Param", []).
Proof.
  split; [|split; [|split; [|by repeat split]]].
  - intros base paramText rest Hb Hr.
    change (go "[") with [91%N]. change (go "]") with [93%N].
    unfold SplitGenericType.
    change (go "[") with [91%N]. change (go "]") with [93%N].
    cbn [app].
    rewrite (Index_app_char base (paramText ++ 93%N :: rest) 91%N Hb).
    replace (base ++ 91%N :: paramText ++ 93%N :: rest)
      with ((base ++ 91%N :: paramText) ++ 93%N :: rest)
      by (by rewrite <- app_assoc).
    rewrite (LastIndex_app_char (base ++ 91%N :: paramText) rest 93%N Hr).
    rewrite length_app. cbn [length].
    replace ((Z.of_nat (length base) <? 0)%Z
             || (Z.of_nat (length base + S (length paramText))
                 <=? Z.of_nat (length base))%Z) with false
      by (symmetry; apply orb_false_iff; split;
          [apply Z.ltb_ge|apply Z.leb_gt]; lia).
    assert (Hbase : slice ((base ++ 91%N :: paramText) ++ 93%N :: rest) 0
                      (Z.of_nat (length base)) = base).
    { unfold slice. change (Z.to_nat 0) with 0.
      rewrite drop_0, Nat2Z.id, Nat.sub_0_r, <- app_assoc.
      by rewrite take_app_length. }
    assert (Hparam : slice ((base ++ 91%N :: paramText) ++ 93%N :: rest)
                       (Z.of_nat (length base) + 1)
                       (Z.of_nat (length base + S (length paramText)))
                     = paramText).
    { unfold slice.
      replace (Z.to_nat (Z.of_nat (length base) + 1)) with (length base + 1)
        by lia.
      rewrite Nat2Z.id.
      replace (length base + S (length paramText) - (length base + 1))
        with (length paramText) by lia.
      replace ((base ++ 91%N :: paramText) ++ 93%N :: rest)
        with ((base ++ [91%N]) ++ paramText ++ 93%N :: rest)
        by (by rewrite <- !app_assoc).
      replace (length base + 1) with (length (base ++ [91%N]))
        by (rewrite length_app; simpl; lia).
      rewrite drop_app_length. by rewrite take_app_length. }
    rewrite Hbase, Hparam.
    destruct (eqs paramText []); [done|].
    pose proof (split_loop_spec paramText [] [] 0%Z) as Hs.
    destruct (split_loop paramText [] [] 0) as [parts buf].
    cbn [fst snd] in Hs. rewrite Hs.
    destruct (top_level_split_cons paramText 0%Z) as (w & ws & ->). done.
  - intros g Hg. apply SplitGenericType_not_generic.
    change (go "[") with [91%N]. by rewrite (Index_absent g 91%N Hg).
  - intros base rest Hb Hr. apply SplitGenericType_not_generic.
    change (go "[") with [91%N]. change (go "]") with [93%N]. cbn [app].
    rewrite (Index_app_char base rest 91%N Hb).
    replace (base ++ 91%N :: rest) with ((base ++ [91%N]) ++ rest)
      by (by rewrite <- app_assoc).
    rewrite (LastIndex_app_absent (base ++ [91%N]) rest 93%N Hr).
    replace (base ++ [91%N]) with (base ++ 91%N :: [])  by done.
    assert (H93 : LastIndex (base ++ [91%N]) [93%N]
                  = LastIndex base [93%N]).
    { apply LastIndex_app_absent. intros H.
      apply list_elem_of_singleton in H. discriminate. }
    rewrite H93. apply orb_true_iff. right. apply Z.leb_le.
    destruct (LastIndex_lt base 93%N); lia.
Qed.

(** C6, at work on [Result[User]]. *)
Lemma generic_instantiation_maps_parameters_witness :
  exists tsParams base' v',
    forall fuel, fuel_bound ∅ (go "Result[User]") ∅ <= fuel ->
      GoTypeToTSType ∅ [] ∅ ∅ fuel (go "Result[User]") ∅
        = Some (base' ++ go "<" ++ Join tsParams (go ", ") ++ go ">", v').
Proof.
  assert (H : genericTypePattern (TrimSpace (go "Result[User]")) = true
              /\ vget ∅ (TrimSpace (go "Result[User]")) = false
              /\ (∅ : gmap gostring gostring) !! TrimSpace (go "Result[User]")
                 = None).
  { repeat split; reflexivity. }
  destruct H as (Hg & Hv & Hm).
  destruct (proj1 (generic_instantiation_maps_parameters ∅ [] ∅ ∅
                     (go "Result[User]") ∅ Hg eq_refl eq_refl eq_refl
                     eq_refl Hv Hm (not_elem_of_nil _)))
    as (ts & b & v' & H & _).
  exists ts, b, v'. exact H.
Defined.

(** C1, the claim as stated fails: the expressions [T] and a single space
    are not empty, yet the mapper returns the empty text for them, the
    first under a substitution map that sends [T] to the empty text.  More
    fuel gives no other answer. *)
Lemma GoTypeToTSType_empty_result :
  (go "T" <> [] /\ go " " <> [])
  /\ GoTypeToTSType ∅ [] ∅ {[ go "T" := [] ]} 1 (go "T") ∅ = Some ([], ∅)
  /\ GoTypeToTSType ∅ [] ∅ ∅ 1 (go " ") ∅ = Some ([], ∅)
  /\ (forall fuel r v',
        GoTypeToTSType ∅ [] ∅ {[ go "T" := [] ]} fuel (go "T") ∅ = Some (r, v')
        \/ GoTypeToTSType ∅ [] ∅ ∅ fuel (go " ") ∅ = Some (r, v') ->
        r = []).
Proof.
  assert (E1 : GoTypeToTSType ∅ [] ∅ {[ go "T" := [] ]} 1 (go "T") ∅
               = Some ([], ∅)) by (vm_compute; reflexivity).
  assert (E2 : GoTypeToTSType ∅ [] ∅ ∅ 1 (go " ") ∅ = Some ([], ∅))
    by (vm_compute; reflexivity).
  split; [split; discriminate|]. split; [exact E1|]. split; [exact E2|].
  intros fuel r v' [H|H].
  - by injection (GoTypeToTSType_deterministic _ _ _ _ _ _ _ _ _ _ E1 H).
  - by injection (GoTypeToTSType_deterministic _ _ _ _ _ _ _ _ _ _ E2 H).
Qed.

End Claims.

(** * [Convert] *)

Module ConvertClaims.
Import Go2ts.

Lemma Errorf_not_cause (format : string) (arg : gostring) (e : error) :
  Errorf format arg e <> e.
Proof.
  revert format arg. induction e as [id|f a e IH]; intros format arg H.
  - discriminate.
  - injection H as _ _ H. by apply IH in H.
Qed.

Section Convert.
Variable ParseGoFiles : gostring -> GoFileData * option error.
Variable GenerateTypeScript : GoFileData -> gostring -> option error.

(** C9, as amended: [Convert] fails in exactly two ways.  When
    [ParseGoFiles] fails, [GenerateTypeScript] is not called and the error
    returned is [fmt.Errorf("failed to parse Go files in %q: %w", inputDir,
    err)]; when [ParseGoFiles] succeeds and [GenerateTypeScript] fails, the
    error returned is [fmt.Errorf("failed to generate TypeScript file %q:
    %w", outputFile, err)]; otherwise [Convert] returns [nil].  The error
    returned is never the collaborator's error itself: it wraps it, and
    [errors.Unwrap] gives it back.  Each collaborator is called at most
    once. *)
Theorem Convert_wraps_errors (inputDir outputFile : gostring) :
  let data := (ParseGoFiles inputDir).1 in
  let perr := (ParseGoFiles inputDir).2 in
  let res := Convert ParseGoFiles GenerateTypeScript inputDir outputFile in
  (forall err, res.1 = Some err <->
     (exists e, perr = Some e
        /\ err = Errorf "failed to parse Go files in %q: %w" inputDir e)
     \/ (exists e, perr = None
           /\ GenerateTypeScript data outputFile = Some e
           /\ err = Errorf "failed to generate TypeScript file %q: %w"
                     outputFile e))
  /\ (forall err, res.1 = Some err ->
        exists e, Unwrap err = Some e /\ err <> e
          /\ (perr = Some e
              \/ (perr = None
                  /\ GenerateTypeScript data outputFile = Some e)))
  /\ (is_Some perr -> res.2 = [CallParseGoFiles inputDir])
  /\ (perr = None ->
        res.2 = [CallParseGoFiles inputDir;
                 CallGenerateTypeScript data outputFile])
  /\ NoDup res.2.
Proof.
  unfold Convert. destruct (ParseGoFiles inputDir) as [data [e|]]; cbn.
  - repeat split.
    + intros [= <-]. left. eauto.
    + intros [(e' & [= <-] & ->)|(e' & [=] & _)]. done.
    + intros err [= <-]. exists e. repeat split; [apply Errorf_not_cause|].
      by left.
    + done.
    + apply NoDup_singleton.
  - destruct (GenerateTypeScript data outputFile) as [e|] eqn:E; cbn.
    + repeat split.
      * intros [= <-]. right. eauto.
      * intros [(e' & [=] & _)|(e' & _ & [= <-] & ->)]. done.
      * intros err [= <-]. exists e.
        repeat split; [apply Errorf_not_cause|]. by right.
      * by intros [? [=]].
      * apply NoDup_cons. split; [|apply NoDup_singleton].
        intros H. apply list_elem_of_singleton in H. discriminate.
    + repeat split.
      * intros [=].
      * intros [(e' & [=] & _)|(e' & _ & [=] & _)].
      * intros err [=].
      * by intros [? [=]].
      * apply NoDup_cons. split; [|apply NoDup_singleton].
        intros H. apply list_elem_of_singleton in H. discriminate.
Qed.

End Convert.

(** C9, the claim as stated fails: the error [Convert] returns is not the
    error [ParseGoFiles] (or [GenerateTypeScript]) returned, but a new one
    around it. *)
Lemma Convert_modifies_error :
  (Convert (fun _ => ({| Structs := []; Aliases := [] |}, Some (External 0)))
     (fun _ _ => None) (go "in") (go "out")).1
    = Some (Errorf "failed to parse Go files in %q: %w" (go "in") (External 0))
  /\ (Convert (fun _ => ({| Structs := []; Aliases := [] |}, Some (External 0)))
        (fun _ _ => None) (go "in") (go "out")).1
     <> Some (External 0)
  /\ (Convert (fun _ => ({| Structs := []; Aliases := [] |}, None))
        (fun _ _ => Some (External 1)) (go "in") (go "out")).1
     <> Some (External 1).
Proof. repeat split; discriminate. Qed.

End ConvertClaims.

(** * Further properties of the parser package *)

Module TrimFacts.

Lemma drop_while_split {A : Type} (p : A -> bool) (l : list A) :
  exists pre, l = pre ++ drop_while p l /\ Forall (fun x => p x = true) pre.
Proof.
  induction l as [|x l (pre & IH & Hpre)]; [by exists []|]. simpl.
  destruct (p x) eqn:E.
  - exists (x :: pre). split; [simpl; congruence|by constructor].
  - by exists [].
Qed.

Lemma drop_while_head {A : Type} (p : A -> bool) (l : list A) :
  match drop_while p l with [] => True | x :: _ => p x = false end.
Proof.
  induction l as [|x l IH]; [done|]. simpl. by destruct (p x) eqn:E.
Qed.

Lemma drop_while_fixed {A : Type} (p : A -> bool) (l : list A) :
  match l with [] => True | x :: _ => p x = false end ->
  drop_while p l = l.
Proof. destruct l as [|x l]; [done|]. simpl. by intros ->. Qed.

(** [TrimRight] removes a suffix made of white space. *)
Lemma TrimRight_split (s : gostring) :
  exists sfx, s = TrimRight s ++ sfx
              /\ Forall (fun r => IsSpace r = true) sfx.
Proof.
  unfold TrimRight.
  destruct (drop_while_split IsSpace (reverse s)) as (pre & E & Hpre).
  exists (reverse pre). split.
  - rewrite <- reverse_app, <- E. by rewrite reverse_involutive.
  - by apply Forall_reverse.
Qed.

Lemma TrimRight_last (s : gostring) :
  match reverse (TrimRight s) with [] => True | x :: _ => IsSpace x = false end.
Proof.
  unfold TrimRight. rewrite reverse_involutive. apply drop_while_head.
Qed.

(** A trimmed text neither starts nor ends with white space. *)
Lemma TrimSpace_ends (s : gostring) :
  match TrimSpace s with [] => True | x :: _ => IsSpace x = false end
  /\ match reverse (TrimSpace s) with
     | [] => True | x :: _ => IsSpace x = false
     end.
Proof.
  split; [|apply TrimRight_last].
  unfold TrimSpace.
  destruct (TrimRight_split (TrimLeft s)) as (sfx & E & _).
  pose proof (drop_while_head IsSpace s) as Hh. fold (TrimLeft s) in Hh.
  destruct (TrimRight (TrimLeft s)) as [|x l]; [done|].
  rewrite E in Hh. exact Hh.
Qed.

Lemma TrimSpace_fixed (s : gostring) :
  match s with [] => True | x :: _ => IsSpace x = false end ->
  match reverse s with [] => True | x :: _ => IsSpace x = false end ->
  TrimSpace s = s.
Proof.
  intros H1 H2. unfold TrimSpace, TrimLeft, TrimRight.
  rewrite (drop_while_fixed _ _ H1), (drop_while_fixed _ _ H2).
  apply reverse_involutive.
Qed.

Lemma TrimSpace_idem (s : gostring) : TrimSpace (TrimSpace s) = TrimSpace s.
Proof. destruct (TrimSpace_ends s). by apply TrimSpace_fixed. Qed.

End TrimFacts.

Module Extra.
Import Parser GuardFacts FuelFacts TerminationFacts SplitFacts TotalFacts
  ResultFacts DispatchFacts PlainFacts SplitSpecFacts GenericFacts MapFacts
  TrimFacts Go2ts Ast.

Lemma refines_antisym {A : Type} (m m' : M A) :
  refines m m' -> refines m' m -> forall v, m v = m' v.
Proof.
  intros H1 H2 v. destruct (m v) as [x|] eqn:E.
  - symmetry. by apply H1.
  - destruct (m' v) as [x|] eqn:E'; [|done]. apply H2 in E'. congruence.
Qed.

Lemma Contains_char (s : gostring) (c : rune) :
  Contains s [c] = true <-> c ∈ s.
Proof.
  unfold Contains. split.
  - intros H. destruct (decide (c ∈ s)) as [Hin|Hn]; [done|].
    rewrite (Index_absent s c Hn) in H. discriminate.
  - intros H. apply list_elem_of_split_l in H as (a & b & -> & Ha).
    rewrite (Index_app_char a b c Ha). apply Z.leb_le. lia.
Qed.

Lemma ContainsAny_spec (s chars : gostring) :
  ContainsAny s chars = true <-> exists r, r ∈ s /\ r ∈ chars.
Proof.
  unfold ContainsAny. rewrite existsb_exists. split.
  - intros (r & Hr & Hc). apply bool_decide_eq_true in Hc.
    exists r. split; [by apply list_elem_of_In|done].
  - intros (r & Hr & Hc). exists r.
    split; [by apply list_elem_of_In|by apply bool_decide_eq_true].
Qed.

Lemma checkBasicTypes_range (t : gostring) :
  checkBasicTypes t = t \/ checkBasicTypes t ∈ basic_ts_values.
Proof.
  unfold checkBasicTypes, basic_ts_values.
  repeat match goal with
         | |- context [if ?b then _ else _] => destruct b
         end; first [by left | right; set_solver].
Qed.

(** X3: the basic-type table yields the name it was given or one of eight
    fixed texts, and it gives each of those eight texts back unchanged:
    applying the table twice is applying it once. *)
Theorem checkBasicTypes_idempotent (t : gostring) :
  (checkBasicTypes t = t \/ checkBasicTypes t ∈ basic_ts_values)
  /\ (forall r, r ∈ basic_ts_values -> checkBasicTypes r = r)
  /\ checkBasicTypes (checkBasicTypes t) = checkBasicTypes t.
Proof.
  assert (Hfix : Forall (fun r => checkBasicTypes r = r) basic_ts_values).
  { unfold basic_ts_values. repeat constructor. }
  rewrite Forall_forall in Hfix.
  split; [apply checkBasicTypes_range|]. split; [exact Hfix|].
  destruct (checkBasicTypes_range t) as [E|H]; [by rewrite !E|].
  by apply Hfix.
Qed.

Lemma plain_no_sigil (t : gostring) (c : rune) :
  is_plain_name t = true -> c ∈ go "*[{" -> c ∉ t.
Proof.
  unfold is_plain_name. intros H Hc Hin.
  apply andb_true_iff in H as [_ Hall].
  rewrite forallb_forall in Hall.
  specialize (Hall c (proj1 (list_elem_of_In _ _) Hin)).
  apply negb_true_iff, bool_decide_eq_false in Hall. done.
Qed.

(** What the last three rules make of a plain name. *)
Lemma fallback_ts_plain (t : gostring) :
  is_plain_name t = true ->
  (checkBasicTypes t <> t ->
   fallback_ts t = checkBasicTypes t /\ fallback_ts t ∈ basic_ts_values)
  /\ (checkBasicTypes t = t -> 46%N ∈ t \/ 93%N ∈ t ->
      fallback_ts t = go "any")
  /\ (checkBasicTypes t = t -> 46%N ∉ t -> 93%N ∉ t -> fallback_ts t = t).
Proof.
  intros Hp. unfold fallback_ts. split; [|split].
  - intros Hb. rewrite (proj2 (eqs_false _ _) Hb). cbn [negb].
    split; [done|]. by destruct (checkBasicTypes_range t).
  - intros Hb Hd. rewrite Hb, (proj2 (eqs_true t t) eq_refl). cbn [negb].
    unfold checkComplexTypes.
    destruct (Contains t (go ".")) eqn:Ec; [done|].
    destruct Hd as [Hd|Hd].
    { apply (Contains_char t 46%N) in Hd.
      change (go ".") with [46%N] in Ec. congruence. }
    assert (Ha : ContainsAny t (go "*[]") = true).
    { apply ContainsAny_spec. exists 93%N. split; [done|].
      change (go "*[]") with [42%N; 91%N; 93%N]. set_solver. }
    by rewrite Ha.
  - intros Hb Hdot Hbr. rewrite Hb, (proj2 (eqs_true t t) eq_refl).
    cbn [negb]. unfold checkComplexTypes.
    destruct (Contains t (go ".")) eqn:Ec.
    { change (go ".") with [46%N] in Ec. by apply Contains_char in Ec. }
    destruct (ContainsAny t (go "*[]")) eqn:Ea; [|done].
    apply ContainsAny_spec in Ea as (r & Hr & Hc).
    change (go "*[]") with [42%N; 91%N; 93%N] in Hc.
    apply elem_of_cons in Hc as [->|Hc].
    { exfalso. apply (plain_no_sigil t 42%N Hp); [|done].
      change (go "*[{") with [42%N; 91%N; 123%N]. set_solver. }
    apply elem_of_cons in Hc as [->|Hc].
    { exfalso. apply (plain_no_sigil t 91%N Hp); [|done].
      change (go "*[{") with [42%N; 91%N; 123%N]. set_solver. }
    apply list_elem_of_singleton in Hc. by subst.
Qed.

(** A plain name starts and ends with a character that is no white
    space. *)
Lemma plain_name_ends (x : gostring) :
  is_plain_name x = true ->
  (exists c x', x = c :: x' /\ IsSpace c = false)
  /\ (exists c y, reverse x = c :: y /\ IsSpace c = false).
Proof.
  intros Hp. destruct (plain_name_dispatch x Hp) as (Hne & Ht & _).
  destruct (TrimSpace_ends x) as [H1 H2]. rewrite Ht in H1, H2. split.
  - destruct x as [|c x']; [done|]. by exists c, x'.
  - destruct (reverse x) as [|c y] eqn:E; [|by exists c, y].
    apply (f_equal reverse) in E. rewrite reverse_involutive in E. by subst.
Qed.

Lemma tower_suffix (x : gostring) (e : Expr) :
  tower (Ident x) e -> exists pre, ExprToString e = pre ++ x.
Proof.
  intros H. remember (Ident x) as leaf eqn:El.
  induction H as [leaf|leaf e H IH|leaf sized e H IH]; subst leaf.
  - by exists [].
  - destruct (IH eq_refl) as [pre E]. exists (go "*" ++ pre).
    cbn [ExprToString]. rewrite E. by rewrite <- app_assoc.
  - destruct (IH eq_refl) as [pre E]. exists (go "[]" ++ pre).
    cbn [ExprToString]. rewrite E. by rewrite <- app_assoc.
Qed.

(** The text of a tower starts with the leaf's first character, a star or
    an opening bracket. *)
Lemma tower_head (x : gostring) (e : Expr) :
  tower (Ident x) e ->
  e = Ident x
  \/ (exists s, ExprToString e = 42%N :: s)
  \/ (exists s, ExprToString e = 91%N :: s).
Proof.
  intros H. inversion H; subst.
  - by left.
  - right. left. by eexists.
  - right. right. by eexists.
Qed.

Lemma tower_trimmed (x : gostring) (e : Expr) :
  is_plain_name x = true -> tower (Ident x) e ->
  TrimSpace (ExprToString e) = ExprToString e.
Proof.
  intros Hp H.
  destruct (plain_name_ends x Hp) as [(c & x' & Hx & Hc) (d & y & Hy & Hd)].
  apply TrimSpace_fixed.
  - destruct (tower_head x e H) as [->|[[s ->]|[s ->]]]; [|done|done].
    cbn [ExprToString]. by rewrite Hx.
  - destruct (tower_suffix x e H) as [pre ->].
    by rewrite reverse_app, Hy.
Qed.

Lemma prefix_inv (p a b : gostring) : p ++ a = p ++ b -> a = b.
Proof. induction p as [|c p IH]; [done|]. intros [= H]. by apply IH. Qed.

Lemma tower_not_literal (x lit : gostring) (e : Expr) :
  tower (Ident x) e -> x <> lit ->
  HasPrefix lit (go "*") = false -> HasPrefix lit (go "[") = false ->
  ExprToString e <> lit.
Proof.
  intros H Hx H1 H2 E.
  destruct (tower_head x e H) as [->|[[s Hs]|[s Hs]]]; [done| |].
  - rewrite Hs in E. subst lit. discriminate.
  - rewrite Hs in E. subst lit. discriminate.
Qed.

Lemma fallback_ts_head (x : gostring) :
  is_plain_name x = true ->
  exists c r, fallback_ts x = c :: r /\ c <> 123%N.
Proof.
  intros Hp.
  destruct (plain_name_dispatch x Hp) as (Hne & _).
  destruct (fallback_ts_plain x Hp) as (Hb & Hany & Hself).
  destruct (decide (checkBasicTypes x = x)) as [E|E].
  - destruct (decide (46%N ∈ x \/ 93%N ∈ x)) as [Hd|Hd].
    + rewrite (Hany E Hd). by eexists _, _.
    + rewrite (Hself E); [|tauto|tauto].
      destruct x as [|c x']; [done|]. exists c, x'. split; [done|].
      intros ->. apply (plain_no_sigil _ 123%N Hp); [|left].
      change (go "*[{") with [42%N; 91%N; 123%N]. set_solver.
  - destruct (Hb E) as [_ Hin]. unfold basic_ts_values in Hin.
    repeat (apply elem_of_cons in Hin as [->|Hin]; [by eexists _, _|]).
    by apply elem_of_nil in Hin.
Qed.

Lemma tower_ts_head (r : gostring) (e : Expr) (c : rune) (r' : gostring) :
  r = c :: r' -> exists s, tower_ts r e = c :: s.
Proof.
  intros ->. induction e; cbn [tower_ts]; try by eexists.
  - destruct IHe as [s ->]. by eexists.
  - destruct IHe as [s ->]. by eexists.
Qed.

Lemma trimmed_parts_cons_cases (f : gostring) (fs : list gostring) :
  trimmed_parts (f :: fs)
  = if eqs (TrimSpace f) [] then trimmed_parts fs
    else TrimSpace f :: trimmed_parts fs.
Proof.
  unfold trimmed_parts, eqs. rewrite fmap_cons, filter_cons.
  destruct (decide (TrimSpace f = [])) as [E|E].
  - rewrite bool_decide_eq_true_2 by done.
    by rewrite decide_False by (intros H; by apply H).
  - rewrite bool_decide_eq_false_2 by done. by rewrite decide_True.
Qed.

Lemma ExprToString_IndexListExpr (x : Expr) (indices : list Expr) :
  ExprToString (IndexListExpr x indices)
  = ExprToString x ++ go "[" ++ Join (ExprToString <$> indices) (go ", ")
    ++ go "]".
Proof.
  cbn [ExprToString]. do 3 f_equal.
Qed.

(** [SplitGenericType] on [base[paramText]] with no bracket in [base]. *)
Lemma SplitGenericType_bracketed (base paramText : gostring) :
  91%N ∉ base -> paramText <> [] ->
  SplitGenericType (base ++ go "[" ++ paramText ++ go "]")
  = (base, trimmed_parts (top_level_split paramText 0%Z)).
Proof.
  intros Hb Hne. change (go "[") with [91%N]. change (go "]") with [93%N].
  unfold SplitGenericType.
  change (go "[") with [91%N]. change (go "]") with [93%N]. cbn [app].
  rewrite (Index_app_char base (paramText ++ [93%N]) 91%N Hb).
  replace (base ++ 91%N :: paramText ++ [93%N])
    with ((base ++ 91%N :: paramText) ++ 93%N :: [])
    by (by rewrite <- app_assoc).
  rewrite (LastIndex_app_char (base ++ 91%N :: paramText) [] 93%N
             (not_elem_of_nil _)).
  rewrite length_app. cbn [length].
  replace ((Z.of_nat (length base) <? 0)%Z
           || (Z.of_nat (length base + S (length paramText))
               <=? Z.of_nat (length base))%Z) with false
    by (symmetry; apply orb_false_iff; split;
        [apply Z.ltb_ge|apply Z.leb_gt]; lia).
  assert (Hbase : slice ((base ++ 91%N :: paramText) ++ [93%N]) 0
                    (Z.of_nat (length base)) = base).
  { unfold slice. change (Z.to_nat 0) with 0.
    rewrite drop_0, Nat2Z.id, Nat.sub_0_r, <- app_assoc.
    by rewrite take_app_length. }
  assert (Hparam : slice ((base ++ 91%N :: paramText) ++ [93%N])
                     (Z.of_nat (length base) + 1)
                     (Z.of_nat (length base + S (length paramText)))
                   = paramText).
  { unfold slice.
    replace (Z.to_nat (Z.of_nat (length base) + 1)) with (length base + 1)
      by lia.
    rewrite Nat2Z.id.
    replace (length base + S (length paramText) - (length base + 1))
      with (length paramText) by lia.
    replace ((base ++ 91%N :: paramText) ++ [93%N])
      with ((base ++ [91%N]) ++ paramText ++ [93%N])
      by (by rewrite <- !app_assoc).
    replace (length base + 1) with (length (base ++ [91%N]))
      by (rewrite length_app; simpl; lia).
    rewrite drop_app_length. by rewrite take_app_length. }
  rewrite Hbase, Hparam.
  rewrite (proj2 (eqs_false _ _) Hne).
  pose proof (split_loop_spec paramText [] [] 0%Z) as Hs.
  destruct (split_loop paramText [] [] 0) as [parts buf].
  cbn [fst snd] in Hs. rewrite Hs.
  destruct (top_level_split_cons paramText 0%Z) as (w & ws & ->). done.
Qed.

(** A text with no top-level comma stays one piece in front of what
    follows it. *)
Lemma top_level_split_app (p s : gostring) :
  forall d, top_level_split p d = [p] ->
    top_level_split (p ++ s) d
    = match top_level_split s (end_depth p d) with
      | w :: ws => (p ++ w) :: ws
      | [] => [p]
      end.
Proof.
  induction p as [|r p IH]; intros d H.
  - cbn [app end_depth].
    by destruct (top_level_split_cons s d) as (w & ws & ->).
  - cbn [app top_level_split end_depth] in *.
    destruct ((r =? 44)%N && (d =? 0)%Z)%bool; [discriminate|].
    cbv zeta in *.
    set (d' := if (r =? 91)%N then (d + 1)%Z
               else if (r =? 93)%N then (d - 1)%Z else d) in *.
    destruct (top_level_split_cons p d') as (w & ws & Ew).
    rewrite Ew in H. injection H as -> ->.
    rewrite (IH d' Ew).
    by destruct (top_level_split_cons s (end_depth p d')) as (w' & ws' & ->).
Qed.

Lemma TrimSpace_space (s : gostring) : TrimSpace (32%N :: s) = TrimSpace s.
Proof. done. Qed.

Lemma trimmed_parts_joined (ps : list gostring) :
  ps <> [] -> Forall (fun p => is_atomic_param p = true) ps ->
  trimmed_parts (top_level_split (Join ps (go ", ")) 0%Z) = ps.
Proof.
  intros Hne Hall. induction Hall as [|p ps Hp Hall IH]; [done|]. clear Hne.
  unfold is_atomic_param in Hp.
  apply andb_true_iff in Hp as [Hp Hd]. apply andb_true_iff in Hp as [Hp Hs].
  apply andb_true_iff in Hp as [Hn Ht].
  apply negb_true_iff, eqs_false in Hn. apply eqs_true in Ht.
  apply bool_decide_eq_true in Hs. apply Z.eqb_eq in Hd.
  destruct ps as [|q ps].
  - cbn [Join]. rewrite Hs. unfold trimmed_parts.
    rewrite fmap_cons, fmap_nil, Ht, filter_cons, filter_nil.
    by rewrite decide_True.
  - change (Join (p :: q :: ps) (go ", "))
      with (p ++ 44%N :: 32%N :: Join (q :: ps) (go ", ")).
    rewrite (top_level_split_app p _ 0%Z Hs), Hd.
    cbn [top_level_split]. change ((44 =? 44)%N && (0 =? 0)%Z)%bool with true.
    cbv iota. rewrite app_nil_r.
    change ((32 =? 44)%N && (0 =? 0)%Z)%bool with false.
    change (32 =? 91)%N with false. change (32 =? 93)%N with false.
    cbv iota zeta.
    destruct (top_level_split_cons (Join (q :: ps) (go ", ")) 0%Z)
      as (w & ws & Ew).
    rewrite Ew in *. specialize (IH ltac:(done)).
    rewrite trimmed_parts_cons_cases, Ht.
    rewrite (proj2 (eqs_false _ _) Hn). f_equal.
    rewrite trimmed_parts_cons_cases, TrimSpace_space.
    by rewrite <- trimmed_parts_cons_cases.
Qed.

(** X10: [SplitGenericType] undoes what [ExprToString] writes for a generic
    instantiation: the text of [X[I1, ..., In]] (and of [X[I]]) splits into
    the text of [X] and the texts of the indices, when the text of [X] has
    no bracket and each index text is not empty, trimmed, has no comma
    outside brackets and closes its brackets. *)
Theorem SplitGenericType_inverts_ExprToString (x : Expr)
  (indices : list Expr) :
  91%N ∉ ExprToString x -> indices <> [] ->
  Forall (fun i => is_atomic_param (ExprToString i) = true) indices ->
  SplitGenericType (ExprToString (IndexListExpr x indices))
  = (ExprToString x, ExprToString <$> indices)
  /\ (forall i, indices = [i] ->
        SplitGenericType (ExprToString (IndexExpr x i))
        = (ExprToString x, [ExprToString i])).
Proof.
  intros Hx Hne Hall.
  assert (Hall' : Forall (fun p => is_atomic_param p = true)
                    (ExprToString <$> indices)) by (by apply Forall_fmap).
  assert (Hne' : ExprToString <$> indices <> [])
    by (by destruct indices).
  assert (Hjoin : Join (ExprToString <$> indices) (go ", ") <> []).
  { destruct indices as [|i l]; [done|]. rewrite fmap_cons.
    apply Forall_cons in Hall as [Hi _]. unfold is_atomic_param in Hi.
    apply andb_true_iff in Hi as [Hi _]. apply andb_true_iff in Hi as [Hi _].
    apply andb_true_iff in Hi as [Hi _]. apply negb_true_iff, eqs_false in Hi.
    destruct (ExprToString i) as [|c s] eqn:E; [done|].
    destruct (ExprToString <$> l); cbn [Join]; discriminate. }
  assert (Hsplit : SplitGenericType (ExprToString (IndexListExpr x indices))
                   = (ExprToString x, ExprToString <$> indices)).
  { rewrite ExprToString_IndexListExpr.
    rewrite (SplitGenericType_bracketed _ _ Hx Hjoin).
    by rewrite trimmed_parts_joined. }
  split; [exact Hsplit|].
  intros i ->. rewrite ExprToString_IndexListExpr in Hsplit. exact Hsplit.
Qed.

Section Environment.
Variable aliasMap : gmap gostring gostring.
Variable typeParams : list gostring.
Variable structMap : gmap gostring StructInfo.
Variable typeParamMapping : gmap gostring gostring.

Local Abbreviation mapType :=
  (GoTypeToTSType aliasMap typeParams structMap typeParamMapping).

(** X1: white space around a type expression is ignored: the mapper gives
    the expression and its trimmed form the same answer and leaves the same
    visited map. *)
Theorem GoTypeToTSType_ignores_outer_space (fuel : nat) (g : gostring)
  (v : visited_map) :
  mapType fuel (TrimSpace g) v = mapType fuel g v.
Proof.
  destruct fuel as [|n]; [done|]. cbn [GoTypeToTSType].
  unfold GoTypeToTSType_step. by rewrite TrimSpace_idem.
Qed.

(** X2: the table of known records plays no part in the mapping: two
    calls that differ only in [structMap] give the same answer. *)
Theorem GoTypeToTSType_ignores_structMap
  (structMap' : gmap gostring StructInfo) (fuel : nat) (g : gostring)
  (v : visited_map) :
  GoTypeToTSType aliasMap typeParams structMap' typeParamMapping fuel g v
  = mapType fuel g v.
Proof.
  assert (Hbody : forall sm sm' rec n t,
            GoTypeToTSType_body aliasMap typeParams sm typeParamMapping rec n t
            = GoTypeToTSType_body aliasMap typeParams sm' typeParamMapping
                rec n t).
  { intros sm sm' rec n t. unfold GoTypeToTSType_body.
    destruct (typeParamMapping !! t); [done|].
    repeat match goal with
           | |- (if ?b then _ else _) = (if ?b then _ else _) =>
               destruct b; [done|]
           end.
    f_equal. by destruct (IsUserDefinedStruct t sm),
                         (IsUserDefinedStruct t sm'), (IsAliasName t). }
  assert (Href : forall sm sm' k g',
            refines
              (GoTypeToTSType aliasMap typeParams sm typeParamMapping k g')
              (GoTypeToTSType aliasMap typeParams sm' typeParamMapping k g')).
  { intros sm sm' k. induction k as [|k IH]; intros g'.
    - apply refines_out_of_fuel.
    - cbn [GoTypeToTSType]. intros v0 x H.
      apply (GoTypeToTSType_step_mono aliasMap typeParams sm'
               typeParamMapping _ _ k k IH (Nat.le_refl k) g').
      unfold GoTypeToTSType_step in *.
      by rewrite (Hbody sm' sm). }
  apply refines_antisym; apply Href.
Qed.

Lemma plain_body_fallback (rec : gostring -> M gostring) (n : nat)
  (t : gostring) (v : visited_map) :
  is_plain_name t = true -> typeParamMapping !! t = None ->
  t ∉ typeParams -> aliasMap !! t = None ->
  GoTypeToTSType_body aliasMap typeParams structMap typeParamMapping
    rec n t v = Some (fallback_ts t, v).
Proof.
  intros Hplain Hm Htp Ha.
  destruct (plain_name_dispatch t Hplain)
    as (Hne & _ & Hsp & H1 & H2 & H3 & H4 & H5).
  unfold GoTypeToTSType_body. rewrite Hm.
  rewrite (proj2 (eqs_false _ _) Hne), Hsp.
  change (negb (eqs [] [])) with false. cbv iota.
  rewrite (bool_decide_eq_false_2 _ Htp), H1, H2, H3, H4, H5.
  unfold checkAliasTypes. rewrite Ha. unfold bind, ret.
  change (negb (eqs [] [])) with false. cbv iota. unfold fallback_ts.
  destruct (negb (eqs (checkBasicTypes t) t)); [done|].
  destruct (negb (eqs (checkComplexTypes t) [])); [done|].
  by destruct (IsAliasName t), (IsUserDefinedStruct t structMap).
Qed.

(** X4: a plain name (no [*], [[], [{], not [func]) that is no alias, no
    substitution key, no generic parameter and is not being resolved is
    mapped by the table, the foreign-type heuristic or passed through: a
    table entry gives its fixed text; otherwise a name with a dot or a
    closing bracket gives [any]; any other name comes back unchanged.  The
    visited map loses at most the name's own unset entry. *)
Theorem plain_name_falls_through (n : nat) (t : gostring)
  (v : visited_map) :
  is_plain_name t = true -> typeParamMapping !! t = None ->
  t ∉ typeParams -> aliasMap !! t = None -> vget v t = false ->
  exists r,
    mapType (S n) t v = Some (r, delete t v)
    /\ (checkBasicTypes t <> t ->
        r = checkBasicTypes t /\ r ∈ basic_ts_values)
    /\ (checkBasicTypes t = t -> 46%N ∈ t \/ 93%N ∈ t -> r = go "any")
    /\ (checkBasicTypes t = t -> 46%N ∉ t -> 93%N ∉ t -> r = t).
Proof.
  intros Hplain Hm Htp Ha Hv. exists (fallback_ts t).
  split; [|by apply fallback_ts_plain].
  destruct (plain_name_dispatch t Hplain) as (_ & Ht & _).
  cbn [GoTypeToTSType]. unfold GoTypeToTSType_step. rewrite Ht, Hv.
  rewrite plain_body_fallback by done. by rewrite delete_insert_eq.
Qed.

(** X5: a plain alias name whose value is another text maps to what that
    text maps to while the name is marked as being resolved; if that is
    the empty text, the name is treated as if it were no alias. *)
Theorem alias_maps_to_underlying (A B : gostring) (v : visited_map) :
  is_plain_name A = true -> typeParamMapping !! A = None ->
  A ∉ typeParams -> aliasMap !! A = Some B -> B <> A ->
  vget v A = false ->
  exists rB vB,
    (forall fuel, fuel_bound aliasMap B (<[A := true]> v) <= fuel ->
       mapType fuel B (<[A := true]> v) = Some (rB, vB))
    /\ (forall fuel, fuel_bound aliasMap A v <= fuel ->
          mapType fuel A v
          = Some (if eqs rB [] then fallback_ts A else rB, delete A vB)).
Proof.
  intros Hplain Hm Htp Ha Hne Hv.
  destruct (plain_name_dispatch A Hplain)
    as (HneA & Ht & Hsp & H1 & H2 & H3 & H4 & H5).
  destruct (Claims.GoTypeToTSType_answer aliasMap typeParams structMap
              typeParamMapping B (<[A := true]> v)) as (rB & vB & HB).
  destruct (Claims.GoTypeToTSType_answer aliasMap typeParams structMap
              typeParamMapping A v) as (r & v' & HA).
  exists rB, vB. split; [exact HB|].
  assert (Hv' : vget v (TrimSpace A) = false) by (by rewrite Ht).
  destruct (Claims.GoTypeToTSType_unfold aliasMap typeParams structMap
              typeParamMapping A v r v'
              (fuel_bound aliasMap B (<[A := true]> v))
              (if eqs rB [] then fallback_ts A else rB) vB HA Hv')
    as [-> E]; [|rewrite Ht in E; by subst v'].
  rewrite Ht. unfold GoTypeToTSType_body. rewrite Hm.
  rewrite (proj2 (eqs_false _ _) HneA), Hsp.
  change (negb (eqs [] [])) with false. cbv iota.
  rewrite (bool_decide_eq_false_2 _ Htp), H1, H2, H3, H4, H5.
  unfold checkAliasTypes. rewrite Ha.
  rewrite (proj2 (eqs_false _ _) Hne). unfold bind.
  rewrite (HB _ (Nat.le_refl _)).
  destruct (eqs rB []); cbn [negb]; [|done]. unfold ret, fallback_ts.
  destruct (negb (eqs (checkBasicTypes A) A)); [done|].
  destruct (negb (eqs (checkComplexTypes A) [])); [done|].
  by destruct (IsAliasName A), (IsUserDefinedStruct A structMap).
Qed.

(** X6: in the index signature [parseMapType] returns, the value text is
    the mapping of the text after the first closing bracket, put in
    parentheses when it holds a [|], does not end with [[]] and does not
    start with a parenthesis; so the value is never a bare union. *)
Theorem parseMapType_value_never_bare_union (rec : gostring -> M gostring)
  (n : nat) (t p0 p1 : gostring) (v : visited_map) r v' :
  SplitN2 (drop 4 t) (go "]") = Some (p0, p1) ->
  parseMapType aliasMap rec n t v = Some (r, v') ->
  exists keyTS raw va,
    rec (TrimSpace p1) va = Some (raw, v')
    /\ r = go "{ [key: " ++ keyTS ++ go "]: " ++ wrap_union raw ++ go " }"
    /\ (Contains (wrap_union raw) (go "|") = true ->
        HasSuffix (wrap_union raw) (go "[]") = true
        \/ HasPrefix (wrap_union raw) (go "(") = true).
Proof.
  intros Hs H. unfold parseMapType in H.
  change (length (go "map[")) with 4 in H. rewrite Hs in H.
  unfold bind at 1 in H.
  match type of H with
  | match ?k v with _ => _ end = _ =>
      destruct (k v) as [[keyTS va]|]; [|discriminate]
  end.
  unfold bind, ret in H.
  destruct (rec (TrimSpace p1) va) as [[raw vb]|] eqn:E; [|discriminate].
  apply (inj Some) in H.
  assert (Hr := f_equal fst H). assert (Hv := f_equal snd H).
  cbn [fst snd] in Hr, Hv. subst r v'.
  exists keyTS, raw, va. split; [done|]. split; [done|].
  unfold wrap_union.
  destruct (Contains raw (go "|")) eqn:Ec; cbn [andb].
  - destruct (HasSuffix raw (go "[]")) eqn:Es; cbn [negb andb];
      [by left|].
    destruct (HasPrefix raw (go "(")) eqn:Ep; cbn [negb]; [by right|].
    intros _. by right.
  - by rewrite Ec.
Qed.



Lemma mapType_good (n : nat) :
  size aliasMap < n ->
  forall c v,
    vget v (TrimSpace c) = true \/ fuel_bound aliasMap c v <= n ->
    exists r v', mapType n c v = Some (r, v').
Proof.
  intros Hn c v [Hc|Hc]; [|by apply GoTypeToTSType_total].
  destruct n as [|n']; [lia|]. cbn [GoTypeToTSType].
  unfold GoTypeToTSType_step. rewrite Hc. eauto.
Qed.

(** X8: the exported helpers answer when they are called directly, as the
    tests do, whatever the text and the alias table are: with [entry_fuel]
    units of fuel [ParseStructType] and [CheckGenericPatterns] return a
    text, and [visited[k]] reads the same for every [k] afterwards, no key
    being added. *)
Theorem exported_helpers_answer (n : nat) (t : gostring) (v : visited_map) :
  entry_fuel aliasMap t v <= S n ->
  (exists r v',
     ParseStructType (mapType n) t v = Some (r, v')
     /\ (forall k, vget v' k = vget v k) /\ v' ⊆ v)
  /\ (exists r v',
        CheckGenericPatterns aliasMap (mapType n) t v = Some (r, v')
        /\ (forall k, vget v' k = vget v k) /\ v' ⊆ v).
Proof.
  intros Hb. unfold entry_fuel in Hb.
  assert (Hn : size aliasMap < n) by lia.
  assert (Hpres : forall g, preserves (mapType n g))
    by (intros g; apply GoTypeToTSType_preserves).
  assert (Hb' : length (0%N :: t)
                + size (pending aliasMap v) * S (max_target_len aliasMap)
                + size aliasMap + 2 <= S n) by (cbn [length]; lia).
  pose proof (mapType_good n Hn) as Hgood.
  assert (Hfin : forall (m : M gostring),
            answers v m -> preserves m ->
            exists r v', m v = Some (r, v')
                         /\ (forall k, vget v' k = vget v k) /\ v' ⊆ v).
  { intros m Ha Hp. destruct (Ha v (fun k => eq_refl)) as (r & v' & E & _).
    exists r, v'. split; [done|]. destruct (Hp _ _ _ E) as [Hs He].
    split; [by intros k; rewrite He|done]. }
  split; apply Hfin.
  - unfold ParseStructType. apply answers_bind; [|intros; apply answers_ret].
    apply (struct_fields_answers aliasMap (mapType n) n (0%N :: t) v
             Hgood Hpres Hn Hb').
    intros f Hf. apply Split1_length in Hf.
    pose proof (TrimSuffix_length (TrimPrefix t (go "struct{")) (go "}")).
    assert (length (TrimPrefix t (go "struct{")) <= length t).
    { unfold TrimPrefix. destruct (HasPrefix t (go "struct{")); [|lia].
      rewrite length_drop. lia. }
    cbn [length]. lia.
  - by apply ParseStructType_preserves.
  - unfold CheckGenericPatterns.
    pose proof (SplitGenericType_params_length t) as Hlen.
    destruct (SplitGenericType t) as [base params] eqn:Es. cbn [snd] in Hlen.
    apply answers_bind.
    + apply (map_params_answers aliasMap (mapType n) n (0%N :: t) v
               Hgood Hpres Hn Hb').
      intros q Hq. cbn [length]. destruct t as [|c t'].
      * unfold SplitGenericType in Es. cbn in Es. injection Es as _ <-.
        by apply elem_of_nil in Hq.
      * specialize (Hlen q ltac:(done) Hq). lia.
    + intros tsParams. apply answers_bind; [|intros; apply answers_ret].
      destruct (aliasMap !! base) as [baseAlias|] eqn:E; [|apply answers_ret].
      destruct (negb _); [|apply answers_ret].
      apply (rec_answers aliasMap (mapType n) n (0%N :: t) v
               Hgood Hpres Hb').
      right. by eapply alias_target_elem.
  - by apply CheckGenericPatterns_preserves.
Qed.

Lemma tower_eval (x : gostring) (e : Expr) :
  tower (Ident x) e ->
  is_plain_name x = true ->
  x ∉ [go "byte"; go "time.Time"; go "url.URL"] ->
  aliasMap !! x = None ->
  (forall pre, typeParamMapping !! (pre ++ x) = None) ->
  (forall pre, pre ++ x ∉ typeParams) ->
  forall fuel v,
    length (ExprToString e) < fuel ->
    (forall k, is_Some (v !! k) -> length (ExprToString e) < length k) ->
    mapType fuel (ExprToString e) v
    = Some (tower_ts (fallback_ts x) e, v).
Proof.
  intros Ht Hp Hx Ha Hm Htp.
  assert (Hx1 : x <> go "byte") by set_solver.
  assert (Hx2 : x <> go "time.Time") by set_solver.
  assert (Hx3 : x <> go "url.URL") by set_solver.
  remember (Ident x) as leaf eqn:El.
  induction Ht as [leaf|leaf e Ht IH|leaf sized e Ht IH]; subst leaf;
    intros fuel v Hf Hv.
  - cbn [ExprToString tower_ts] in *.
    destruct fuel as [|n]; [lia|].
    destruct (plain_name_dispatch x Hp) as (_ & Htrim & _).
    assert (Hnone : v !! x = None).
    { destruct (v !! x) eqn:E; [|done].
      specialize (Hv x ltac:(by rewrite E)). lia. }
    cbn [GoTypeToTSType]. unfold GoTypeToTSType_step. rewrite Htrim.
    unfold vget at 1. rewrite Hnone. cbn [default].
    rewrite plain_body_fallback; [|done|apply (Hm [])|apply (Htp [])|done].
    by rewrite delete_insert_id.
  - specialize (IH eq_refl).
    pose proof (tower_trimmed x _ Hp (tower_star _ _ Ht)) as Htrim.
    destruct (tower_suffix x _ (tower_star _ _ Ht)) as [pre Epre].
    cbn [ExprToString tower_ts] in *.
    destruct fuel as [|n]; [lia|].
    set (s := go "*" ++ ExprToString e) in *.
    assert (Hnone : v !! s = None).
    { destruct (v !! s) eqn:E; [|done].
      specialize (Hv s ltac:(by rewrite E)). lia. }
    assert (Hsp : checkSpecialCases s = []).
    { apply pointer_not_special; [done|]. intros Hin.
      apply elem_of_cons in Hin as [Hin|Hin].
      { assert (E : ExprToString e = go "time.Time")
          by (apply (prefix_inv (go "*")); exact Hin).
        by apply (tower_not_literal x (go "time.Time") e Ht Hx2). }
      apply elem_of_cons in Hin as [Hin|Hin]; [|by apply elem_of_nil in Hin].
      assert (E : ExprToString e = go "url.URL")
        by (apply (prefix_inv (go "*")); exact Hin).
      by apply (tower_not_literal x (go "url.URL") e Ht Hx3). }
    cbn [GoTypeToTSType]. unfold GoTypeToTSType_step. rewrite Htrim.
    unfold vget at 1. rewrite Hnone. cbn [default].
    unfold GoTypeToTSType_body. rewrite Epre, Hm, <- Epre.
    change (eqs s []) with false. cbv iota. rewrite Hsp.
    change (negb (eqs [] [])) with false. cbv iota.
    rewrite bool_decide_eq_false_2 by (rewrite Epre; apply Htp).
    change (HasPrefix s (go "*")) with true. cbv iota.
    change (drop 1 s) with (ExprToString e). unfold bind.
    rewrite (IH n (<[s := true]> v)).
    + unfold ret. by rewrite delete_insert_id.
    + unfold s in Hf. cbn [app length] in Hf. simpl in Hf. lia.
    + intros k Hk. apply lookup_insert_is_Some' in Hk as [<-|Hk].
      * unfold s. simpl. lia.
      * specialize (Hv k Hk). unfold s in Hv. simpl in Hv. lia.
  - specialize (IH eq_refl).
    pose proof (tower_trimmed x _ Hp (tower_array _ sized _ Ht)) as Htrim.
    destruct (tower_suffix x _ (tower_array _ sized _ Ht)) as [pre Epre].
    cbn [ExprToString tower_ts] in *.
    destruct fuel as [|n]; [lia|].
    set (s := go "[]" ++ ExprToString e) in *.
    assert (Hnone : v !! s = None).
    { destruct (v !! s) eqn:E; [|done].
      specialize (Hv s ltac:(by rewrite E)). lia. }
    assert (Hsp : checkSpecialCases s = [] /\ HasPrefix s (go "*") = false).
    { apply slice_not_special; [done|]. intros Hin.
      assert (E : ExprToString e = go "byte")
        by (apply (prefix_inv (go "[]")); exact Hin).
      by apply (tower_not_literal x (go "byte") e Ht Hx1). }
    destruct Hsp as [Hsp Hstar].
    cbn [GoTypeToTSType]. unfold GoTypeToTSType_step. rewrite Htrim.
    unfold vget at 1. rewrite Hnone. cbn [default].
    unfold GoTypeToTSType_body. rewrite Epre, Hm, <- Epre.
    change (eqs s []) with false. cbv iota. rewrite Hsp.
    change (negb (eqs [] [])) with false. cbv iota.
    rewrite bool_decide_eq_false_2 by (rewrite Epre; apply Htp).
    rewrite Hstar. change (HasPrefix s (go "[]")) with true. cbv iota.
    change (drop 2 s) with (ExprToString e). unfold bind.
    rewrite (IH n (<[s := true]> v)).
    + unfold ret. rewrite delete_insert_id by done.
      destruct (fallback_ts_head x Hp) as (c & r & Er & Hc).
      destruct (tower_ts_head _ e c r Er) as [s' Es]. rewrite Es.
      assert (Hw : HasPrefix (c :: s') (go "{ [key:") = false).
      { change (go "{ [key:") with (123%N :: go " [key:").
        cbn [HasPrefix]. rewrite bool_decide_eq_false_2; [done|].
        intros E. by apply Hc. }
      by rewrite Hw.
    + unfold s in Hf. simpl in Hf. lia.
    + intros k Hk. apply lookup_insert_is_Some' in Hk as [<-|Hk].
      * unfold s. simpl. lia.
      * specialize (Hv k Hk). unfold s in Hv. simpl in Hv. lia.
Qed.

(** X9: the text [ExprToString] writes for pointers and slices over a
    plain identifier is mapped back structurally: each pointer adds
    [ | null], each slice or array adds [[]], around the mapping of the
    identifier, when the identifier is no alias and is not [byte],
    [time.Time] or [url.URL], and no text ending with it is a substitution
    key or a generic parameter.  The visited map, empty before, is empty
    after. *)
Theorem pointer_slice_towers_map_structurally (x : gostring) (e : Expr)
  (fuel : nat) :
  tower (Ident x) e ->
  is_plain_name x = true ->
  x ∉ [go "byte"; go "time.Time"; go "url.URL"] ->
  aliasMap !! x = None ->
  (forall pre, typeParamMapping !! (pre ++ x) = None) ->
  (forall pre, pre ++ x ∉ typeParams) ->
  length (ExprToString e) < fuel ->
  mapType fuel (ExprToString e) ∅ = Some (tower_ts (fallback_ts x) e, ∅).
Proof.
  intros Ht Hp Hx Ha Hm Htp Hf. apply tower_eval; try done.
  intros k Hk. rewrite lookup_empty in Hk. by destruct Hk.
Qed.

End Environment.

(** ** The declaration walk *)

Lemma add_spec_cases (data : GoFileData) (spec : TypeSpec) :
  add_spec data spec
  = if is_struct_spec spec
    then {| Structs := Structs data ++ [struct_of spec];
            Aliases := Aliases data |}
    else {| Structs := Structs data;
            Aliases := Aliases data ++ [alias_of spec] |}.
Proof.
  unfold add_spec, is_struct_spec, struct_of, alias_of.
  by destruct (TSType spec).
Qed.

Lemma filter_split_length {A : Type} (f : A -> bool) (l : list A) :
  length (filter (fun a => f a = true) l)
  + length (filter (fun a => f a = false) l) = length l.
Proof.
  induction l as [|a l IH]; [done|]. rewrite !filter_cons.
  destruct (f a) eqn:E.
  - rewrite decide_True, decide_False by done. simpl. lia.
  - rewrite decide_False, decide_True by done. simpl. lia.
Qed.

Lemma foldl_add_spec (specs : list TypeSpec) :
  forall data,
    Structs (foldl add_spec data specs)
    = Structs data
      ++ (struct_of <$> filter (fun s => is_struct_spec s = true) specs)
    /\ Aliases (foldl add_spec data specs)
       = Aliases data
         ++ (alias_of <$> filter (fun s => is_struct_spec s = false) specs).
Proof.
  induction specs as [|spec specs IH]; intros data.
  - cbn. by rewrite !app_nil_r.
  - cbn [foldl]. destruct (IH (add_spec data spec)) as [-> ->].
    rewrite add_spec_cases, !filter_cons.
    destruct (is_struct_spec spec) eqn:E; cbn [Structs Aliases].
    + rewrite decide_True, decide_False by done.
      by rewrite fmap_cons, <- app_assoc.
    + rewrite decide_False, decide_True by done.
      by rewrite fmap_cons, <- app_assoc.
Qed.

(** X11: the declarations of a file add exactly one entry per type spec,
    in source order and behind what was collected before: a struct type
    gives a [GoStruct], any other type a [TypeAlias]; other declarations
    add nothing. *)
Theorem declarations_give_one_entry_per_type_spec (decls : list Decl)
  (data : GoFileData) :
  Structs (foldl add_decl data decls)
  = Structs data
    ++ (struct_of <$> filter (fun s => is_struct_spec s = true)
                        (specs_of decls))
  /\ Aliases (foldl add_decl data decls)
     = Aliases data
       ++ (alias_of <$> filter (fun s => is_struct_spec s = false)
                          (specs_of decls))
  /\ length (Structs (foldl add_decl data decls))
     + length (Aliases (foldl add_decl data decls))
     = length (Structs data) + length (Aliases data)
       + length (specs_of decls).
Proof.
  assert (H : Structs (foldl add_decl data decls)
              = Structs data
                ++ (struct_of <$> filter (fun s => is_struct_spec s = true)
                                    (specs_of decls))
              /\ Aliases (foldl add_decl data decls)
                 = Aliases data
                   ++ (alias_of <$> filter (fun s => is_struct_spec s = false)
                                      (specs_of decls))).
  { revert data. induction decls as [|d decls IH]; intros data.
    - cbn. by rewrite !app_nil_r.
    - cbn [foldl]. destruct (IH (add_decl data d)) as [-> ->].
      unfold specs_of. cbn [flat_map]. fold (specs_of decls).
      rewrite !filter_app, !fmap_app, !app_assoc.
      destruct d as [specs|]; cbn [add_decl].
      + by destruct (foldl_add_spec specs data) as [-> ->].
      + rewrite !filter_nil, !fmap_nil, !app_nil_r. done. }
  destruct H as [Hs Ha]. split; [done|]. split; [done|].
  rewrite Hs, Ha, !length_app, !length_fmap.
  pose proof (filter_split_length is_struct_spec (specs_of decls)). lia.
Qed.

(** X12: a struct type gives one [StructField] per declared field name, in
    order, each with the text of its field's type; a field without names
    (an embedded field) gives none. *)
Theorem struct_fields_one_per_name (spec : TypeSpec) (fields : list Field) :
  TSType spec = StructType fields ->
  Name <$> GSFields (struct_of spec) = flat_map FieldNames fields
  /\ length (GSFields (struct_of spec))
     = sum_list (length <$> (FieldNames <$> fields))
  /\ (forall f, FieldNames f = [] -> struct_fields_of f = [])
  /\ Forall (fun sf => exists f, f ∈ fields
                        /\ Name sf ∈ FieldNames f
                        /\ Type_ sf = ExprToString (FieldType f))
       (GSFields (struct_of spec)).
Proof.
  intros Hs. unfold struct_of. rewrite Hs. cbn [GSFields]. clear Hs.
  split; [|split; [|split]].
  - induction fields as [|f fs IH]; [done|]. cbn [flat_map].
    rewrite fmap_app, IH. f_equal. unfold struct_fields_of.
    rewrite <- list_fmap_compose. by rewrite list_fmap_id.
  - induction fields as [|f fs IH]; [done|]. cbn [flat_map].
    rewrite length_app, IH, !fmap_cons. cbn [sum_list sum_list_with].
    unfold struct_fields_of. by rewrite length_fmap.
  - intros f Hf. unfold struct_fields_of. by rewrite Hf.
  - induction fields as [|f fs IH]; [constructor|]. cbn [flat_map].
    apply Forall_app. split.
    + unfold struct_fields_of. apply Forall_fmap, Forall_forall.
      intros name Hn. exists f. cbn. split; [left|done].
    + eapply Forall_impl; [exact IH|].
      intros sf (f' & Hin & Hrest). exists f'. split; [by right|done].
Qed.

Lemma walk_app (ParseFile : gostring -> error + list Decl)
  (pre post : list gostring) :
  forall data,
    walk ParseFile data (pre ++ post)
    = match walk ParseFile data pre with
      | (d, Some e) => (d, Some e)
      | (d, None) => walk ParseFile d post
      end.
Proof.
  induction pre as [|p pre IH]; intros data; [done|].
  cbn [app walk]. destruct (walk_fn ParseFile data p) as [d [e|]]; [done|].
  apply IH.
Qed.

(** X13: the walk stops at the first file that fails to parse: the error
    returned is that file's, the data returned is what the paths before it
    gave, and the paths after it are not looked at.  A skipped path (not a
    [.go] file, or a test file) changes nothing. *)
Theorem walk_stops_at_first_parse_error
  (ParseFile : gostring -> error + list Decl)
  (data d1 : GoFileData) (pre post : list gostring) (p : gostring)
  (e : error) :
  walk ParseFile data pre = (d1, None) ->
  skipped p = false -> ParseFile p = inl e ->
  walk ParseFile data (pre ++ p :: post) = (d1, Some e)
  /\ (forall q rest, skipped q = true ->
        walk ParseFile data (q :: rest) = walk ParseFile data rest).
Proof.
  intros Hpre Hs He. split.
  - rewrite walk_app, Hpre. cbn [walk]. unfold walk_fn. by rewrite Hs, He.
  - intros q rest Hq. cbn [walk]. unfold walk_fn. by rewrite Hq.
Qed.

Lemma ext_scan_grows (r acc : gostring) :
  ext_scan r acc = [] \/ length acc < length (ext_scan r acc).
Proof.
  revert acc. induction r as [|c r IH]; intros acc; [by left|].
  cbn [ext_scan]. destruct (c =? 47)%N; [by left|].
  destruct (c =? 46)%N; [right; simpl; lia|].
  destruct (IH (c :: acc)) as [->|H]; [by left|]. right. simpl in H. lia.
Qed.

Lemma Ext_go (path : gostring) :
  Ext path = go ".go" <-> HasSuffix path (go ".go") = true.
Proof.
  unfold Ext, HasSuffix.
  change (reverse (go ".go")) with [111%N; 103%N; 46%N].
  change (go ".go") with [46%N; 103%N; 111%N].
  generalize (reverse path). intros rp. split.
  - intros H. destruct rp as [|c1 r1]; [discriminate|].
    cbn [ext_scan] in H. destruct (c1 =? 47)%N eqn:E1; [discriminate|].
    destruct (c1 =? 46)%N eqn:E2; [discriminate|].
    destruct r1 as [|c2 r2]; [discriminate|].
    cbn [ext_scan] in H. destruct (c2 =? 47)%N eqn:E3; [discriminate|].
    destruct (c2 =? 46)%N eqn:E4; [discriminate|].
    destruct r2 as [|c3 r3]; [discriminate|].
    cbn [ext_scan] in H. destruct (c3 =? 47)%N eqn:E5; [discriminate|].
    destruct (c3 =? 46)%N eqn:E6.
    + injection H as -> -> ->.
      cbn [HasPrefix]. by rewrite !bool_decide_eq_true_2.
    + destruct (ext_scan_grows r3 [c3; c2; c1]) as [E|E].
      * rewrite E in H. discriminate.
      * rewrite H in E. simpl in E. lia.
  - intros H. apply HasPrefix_app in H. rewrite H. done.
Qed.

(** X14: a path is parsed exactly when it ends with [.go] and does not end
    with [_test.go]: the extension test of the guard, which looks at the
    last path element only, comes to a test of the end of the whole path,
    and nothing but the text of the path decides. *)
Theorem parsed_paths_end_with_go (path : gostring) :
  skipped path = false
  <-> HasSuffix path (go ".go") = true
      /\ HasSuffix path (go "_test.go") = false.
Proof.
  unfold skipped. rewrite orb_false_iff, negb_false_iff.
  split; intros [H1 H2]; (split; [|done]).
  - apply Ext_go. by apply eqs_true.
  - apply eqs_true. by apply Ext_go.
Qed.

(** ** The properties at work *)

Lemma not_in_literals (x : gostring) (l : list gostring) :
  bool_decide (x ∈ l) = false -> x ∉ l.
Proof. apply bool_decide_eq_false. Qed.

(** X4 at work: [pkg.Type] is no table entry and has a dot. *)
Lemma plain_name_falls_through_witness :
  exists r,
    GoTypeToTSType ∅ [] ∅ ∅ 1 (go "pkg.Type") ∅
    = Some (r, delete (go "pkg.Type") ∅)
    /\ (checkBasicTypes (go "pkg.Type") <> go "pkg.Type" ->
        r = checkBasicTypes (go "pkg.Type") /\ r ∈ basic_ts_values)
    /\ (checkBasicTypes (go "pkg.Type") = go "pkg.Type" ->
        46%N ∈ go "pkg.Type" \/ 93%N ∈ go "pkg.Type" -> r = go "any")
    /\ (checkBasicTypes (go "pkg.Type") = go "pkg.Type" ->
        46%N ∉ go "pkg.Type" -> 93%N ∉ go "pkg.Type" -> r = go "pkg.Type").
Proof.
  apply (plain_name_falls_through ∅ [] ∅ ∅ 0 (go "pkg.Type") ∅).
  - vm_compute. reflexivity.
  - apply lookup_empty.
  - apply not_elem_of_nil.
  - apply lookup_empty.
  - apply vget_empty.
Defined.

(** X5 at work: [MyInt = int]. *)
Lemma alias_maps_to_underlying_witness :
  exists rB vB,
    (forall fuel,
       fuel_bound {[ go "MyInt" := go "int" ]} (go "int")
         (<[go "MyInt" := true]> ∅) <= fuel ->
       GoTypeToTSType {[ go "MyInt" := go "int" ]} [] ∅ ∅ fuel (go "int")
         (<[go "MyInt" := true]> ∅) = Some (rB, vB))
    /\ (forall fuel,
          fuel_bound {[ go "MyInt" := go "int" ]} (go "MyInt") ∅ <= fuel ->
          GoTypeToTSType {[ go "MyInt" := go "int" ]} [] ∅ ∅ fuel
            (go "MyInt") ∅
          = Some (if eqs rB [] then fallback_ts (go "MyInt") else rB,
                  delete (go "MyInt") vB)).
Proof.
  apply (alias_maps_to_underlying {[ go "MyInt" := go "int" ]} [] ∅ ∅
           (go "MyInt") (go "int") ∅).
  - vm_compute. reflexivity.
  - apply lookup_empty.
  - apply not_elem_of_nil.
  - apply lookup_singleton_eq.
  - discriminate.
  - apply vget_empty.
Defined.

(** X6 at work: the value of [map[string]*int] is [(number | null)]. *)
Lemma parseMapType_value_never_bare_union_witness :
  exists keyTS raw va,
    GoTypeToTSType ∅ [] ∅ ∅ 5 (TrimSpace (go "*int")) va = Some (raw, ∅)
    /\ go "{ [key: string]: (number | null) }"
       = go "{ [key: " ++ keyTS ++ go "]: " ++ wrap_union raw ++ go " }"
    /\ (Contains (wrap_union raw) (go "|") = true ->
        HasSuffix (wrap_union raw) (go "[]") = true
        \/ HasPrefix (wrap_union raw) (go "(") = true).
Proof.
  apply (parseMapType_value_never_bare_union ∅
           (GoTypeToTSType ∅ [] ∅ ∅ 5) 5 (go "map[string]*int")
           (go "string") (go "*int") ∅).
  - vm_compute. reflexivity.
  - vm_compute. reflexivity.
Defined.


(** X8 at work on [struct{X int}]. *)
Lemma exported_helpers_answer_witness :
  (exists r v',
     ParseStructType (GoTypeToTSType ∅ [] ∅ ∅ 15) (go "struct{X int}") ∅
     = Some (r, v')
     /\ (forall k, vget v' k = vget ∅ k) /\ v' ⊆ ∅)
  /\ (exists r v',
        CheckGenericPatterns ∅ (GoTypeToTSType ∅ [] ∅ ∅ 15)
          (go "struct{X int}") ∅ = Some (r, v')
        /\ (forall k, vget v' k = vget ∅ k) /\ v' ⊆ ∅).
Proof.
  apply (exported_helpers_answer ∅ [] ∅ ∅ 15 (go "struct{X int}") ∅).
  vm_compute. apply le_n.
Defined.

(** X9 at work: [*[]int] maps to [number[] | null]. *)
Lemma pointer_slice_towers_map_structurally_witness :
  GoTypeToTSType ∅ [] ∅ ∅ 10
    (ExprToString (StarExpr (ArrayType false (Ident (go "int"))))) ∅
  = Some (tower_ts (fallback_ts (go "int"))
            (StarExpr (ArrayType false (Ident (go "int")))), ∅).
Proof.
  apply (pointer_slice_towers_map_structurally ∅ [] ∅ ∅ (go "int")).
  - apply tower_star, tower_array, tower_leaf.
  - vm_compute. reflexivity.
  - apply not_in_literals. vm_compute. reflexivity.
  - apply lookup_empty.
  - intros pre. apply lookup_empty.
  - intros pre. apply not_elem_of_nil.
  - vm_compute. repeat constructor.
Defined.

(** X10 at work: [Result[K, Map[A, B]]]. *)
Lemma SplitGenericType_inverts_ExprToString_witness :
  SplitGenericType
    (ExprToString
       (IndexListExpr (Ident (go "Result"))
          [Ident (go "K");
           IndexListExpr (Ident (go "Map")) [Ident (go "A"); Ident (go "B")]]))
  = (go "Result", [go "K"; go "Map[A, B]"]).
Proof.
  refine (proj1 (SplitGenericType_inverts_ExprToString
                   (Ident (go "Result"))
                   [Ident (go "K");
                    IndexListExpr (Ident (go "Map"))
                      [Ident (go "A"); Ident (go "B")]] _ _ _)).
  - apply (proj1 (bool_decide_eq_false _)). vm_compute. reflexivity.
  - discriminate.
  - repeat constructor.
Defined.

(** X12 at work: two names, then an embedded field. *)
Lemma struct_fields_one_per_name_witness :
  Name <$> GSFields
             (struct_of
                {| TSName := go "User"; TSTypeParams := [];
                   TSType := StructType
                     [mkField [go "A"; go "B"] (Ident (go "int")) None;
                      mkField [] (Ident (go "Base")) None] |})
  = [go "A"; go "B"].
Proof.
  refine (proj1 (struct_fields_one_per_name
                   {| TSName := go "User"; TSTypeParams := [];
                      TSType := StructType
                        [mkField [go "A"; go "B"] (Ident (go "int")) None;
                         mkField [] (Ident (go "Base")) None] |}
                   [mkField [go "A"; go "B"] (Ident (go "int")) None;
                    mkField [] (Ident (go "Base")) None] eq_refl)).
Defined.

(** X13 at work: [bad.go] fails after [ok.go]; [later.go] is not read. *)
Lemma walk_stops_at_first_parse_error_witness :
  walk (fun p => if eqs p (go "bad.go") then inl (External 0)
                 else inr [TypeDecl []])
    {| Structs := []; Aliases := [] |}
    ([go "notes.txt"; go "ok.go"] ++ go "bad.go" :: [go "later.go"])
  = ({| Structs := []; Aliases := [] |}, Some (External 0)).
Proof.
  refine (proj1 (walk_stops_at_first_parse_error
                   (fun p => if eqs p (go "bad.go") then inl (External 0)
                             else inr [TypeDecl []])
                   {| Structs := []; Aliases := [] |}
                   {| Structs := []; Aliases := [] |}
                   [go "notes.txt"; go "ok.go"] [go "later.go"]
                   (go "bad.go") (External 0) _ _ _)).
  - vm_compute. reflexivity.
  - vm_compute. reflexivity.
  - vm_compute. reflexivity.
Defined.

End Extra.
